(** * JAX-CV: SimMIM pretraining of SwinV2

    A shallow embedding of [swinv2_pretraining_loop.py] and
    [Models/SimMIM.py].  Tensors are nested lists of rationals (exact
    arithmetic stands for the device's floating point), Python integers are
    [Z], extents and indices [nat], parameter paths are lists of dictionary
    keys, and the training script's top-level statements are functions on an
    explicit program state.  What the script calls in optax, orbax and clu is
    modelled from the specification and marked so. *)

From Stdlib Require Import String Bool Arith ZArith QArith Qabs Reals.
From Stdlib Require Import Lia Psatz List Permutation.
Import ListNotations.

#[local] Open Scope Q_scope.

Set Implicit Arguments.

(** ** Parameter paths and the weight-decay mask *)

Module Decay.

(** [jax.tree_util.DictKey]: one segment of a parameter path. *)
Record DictKey := { key : string }.

Definition path := list DictKey.

(** [path[-1]]: the last entry of a tuple, [IndexError] on the empty one. *)
Fixpoint last_entry (p : path) : option DictKey :=
  match p with
  | [] => None
  | [e] => Some e
  | _ :: p' => last_entry p'
  end.

(** ["attention_bias" in [x.key for x in path]] *)
Definition contains (s : string) (keys : list string) : bool :=
  existsb (String.eqb s) keys.

(** [should_decay(path, _)] of [create_train_state]. *)
Definition should_decay (p : path) : option bool :=
  match last_entry p with
  | None => None
  | Some e =>
      let is_kernel := String.eqb (key e) "kernel" in
      let is_cpb := contains "attention_bias" (map key p) in
      Some (is_kernel && negb is_cpb)
  end.

End Decay.

(** ** Tensors

    A rank-[n] array is a list nested [n] deep, in row-major order.  Binary
    element-wise operations follow NumPy's broadcasting rule on every axis:
    equal extents are zipped, an extent of one is stretched, anything else is
    a shape error ([None]). *)

Module Tensor.

Abbreviation T1 := (list Q).
Abbreviation T2 := (list (list Q)).
Abbreviation T3 := (list (list (list Q))).
Abbreviation T4 := (list (list (list (list Q)))).

Fixpoint sequence {A : Type} (l : list (option A)) : option (list A) :=
  match l with
  | [] => Some []
  | None :: _ => None
  | Some a :: l' =>
      match sequence l' with
      | Some r => Some (a :: r)
      | None => None
      end
  end.

(** One axis of a broadcasting binary operation. *)
Definition bcast {A B C : Type} (f : A -> B -> option C)
    (xs : list A) (ys : list B) : option (list C) :=
  if (length xs =? length ys)%nat
  then sequence (map (fun xy => f (fst xy) (snd xy)) (combine xs ys))
  else match xs, ys with
       | [x], _ => sequence (map (f x) ys)
       | _, [y] => sequence (map (fun x => f x y) xs)
       | _, _ => None
       end.

Definition bop0 (f : Q -> Q -> Q) (a b : Q) : option Q := Some (f a b).
Definition bop1 (f : Q -> Q -> Q) : T1 -> T1 -> option T1 := bcast (bop0 f).
Definition bop2 (f : Q -> Q -> Q) : T2 -> T2 -> option T2 := bcast (bop1 f).
Definition bop3 (f : Q -> Q -> Q) : T3 -> T3 -> option T3 := bcast (bop2 f).
Definition bop4 (f : Q -> Q -> Q) : T4 -> T4 -> option T4 := bcast (bop3 f).

Definition map1 (f : Q -> Q) : T1 -> T1 := map f.
Definition map2 (f : Q -> Q) : T2 -> T2 := map (map1 f).
Definition map3 (f : Q -> Q) : T3 -> T3 := map (map2 f).
Definition map4 (f : Q -> Q) : T4 -> T4 := map (map3 f).

(** What [bcast] computes on lists of one length, and on a last axis
    stretched from extent one: used to state results. *)
Definition zipw {A B C : Type} (g : A -> B -> C) (xs : list A) (ys : list B)
    : list C :=
  map (fun xy => g (fst xy) (snd xy)) (combine xs ys).

Definition stretch (f : Q -> Q -> Q) (xt mt : T1) : T1 :=
  map (fun v => f v (hd 0 mt)) xt.

(** [jnp.sum] over every axis. *)
Definition sum1 (t : T1) : Q := fold_right Qplus 0 t.
Definition sum2 (t : T2) : Q := fold_right Qplus 0 (map sum1 t).
Definition sum3 (t : T3) : Q := fold_right Qplus 0 (map sum2 t).
Definition sum4 (t : T4) : Q := fold_right Qplus 0 (map sum3 t).

(** [jnp.repeat(t, n, axis=k)]: every slice along the axis, [n] times in a
    row. *)
Definition repeat_each {A : Type} (n : nat) (l : list A) : list A :=
  flat_map (fun a => repeat a n) l.

Definition repeat_axis1 (n : nat) (t : T3) : T3 := map (repeat_each n) t.
Definition repeat_axis2 (n : nat) (t : T3) : T3 := map (map (repeat_each n)) t.

(** [jnp.expand_dims(t, axis=-1)] *)
Definition expand_dims_last (t : T3) : T4 :=
  map (map (map (fun v => [v]))) t.

(** Cutting a row-major buffer into [n] rows of [w] entries. *)
Fixpoint rows {A : Type} (n w : nat) (l : list A) : list (list A) :=
  match n with
  | O => []
  | S n' => firstn w l :: rows n' w (skipn w l)
  end.

Definition flatten3 (t : T3) : list Q := concat (map (@concat Q) t).

(** [jnp.reshape(mask, (B, L, 1))]: the element count has to agree. *)
Definition reshape_BL1 (B L : nat) (mask : T3) : option T3 :=
  let flat := flatten3 mask in
  if (length flat =? B * L * 1)%nat
  then Some (rows B L (map (fun v => [v]) flat))
  else None.

(** [jnp.reshape(x, (B, H, W, C))] of a [(B, L, C)] array. *)
Definition reshape_BHWC (B H W C : nat) (x : T3) : option T4 :=
  let flat := flatten3 x in
  if (length flat =? B * H * W * C)%nat
  then Some (rows B H (rows (B * H) W (rows (B * H * W) C flat)))
  else None.

(** [jnp.broadcast_to(mask_token, (B, L, embed_dim))] of the [(1, 1, embed_dim)]
    parameter, whose only row is [tok]. *)
Definition broadcast_to_BL (B L : nat) (tok : T1) : T3 :=
  repeat (repeat tok L) B.

(** [B, L, _ = x.shape]; an empty list has no inner extent, [0] stands for
    it. *)
Definition dim0 {A : Type} (t : list A) : nat := length t.
Definition dim1 {A : Type} (t : list (list A)) : nat :=
  match t with
  | [] => O
  | r :: _ => length r
  end.
Definition dim2 {A : Type} (t : list (list (list A))) : nat :=
  match t with
  | [] => O
  | r :: _ => dim1 r
  end.

(** Shapes. *)
Definition shape1 (C : nat) (t : T1) : Prop := length t = C.
Definition shape2 (W C : nat) (t : T2) : Prop :=
  length t = W /\ Forall (shape1 C) t.
Definition shape3 (H W C : nat) (t : T3) : Prop :=
  length t = H /\ Forall (shape2 W C) t.
Definition shape4 (B H W C : nat) (t : T4) : Prop :=
  length t = B /\ Forall (shape3 H W C) t.

(** Indexing, [0] out of range. *)
Definition at1 (t : T1) (c : nat) : Q := nth c t 0.
Definition at2 (t : T2) (j c : nat) : Q := at1 (nth j t []) c.
Definition at3 (t : T3) (i j c : nat) : Q := at2 (nth i t []) j c.
Definition at4 (t : T4) (b i j c : nat) : Q := at3 (nth b t []) i j c.

End Tensor.

(** ** The masked-image-modelling head, [Models/SimMIM.py] *)

Module SimMIM.
Import Tensor.

Section Encoder.

(** Layers of [SwinTransformerV2] the subclass inherits: the patch embedding,
    the stack of Swin blocks with the final norm. *)
Variable patch_embed : T4 -> T3.
Variable swin_body_norm : T3 -> bool -> T3.

(** [self.mask_token], of shape [(1, 1, embed_dim)]: its only row. *)
Variable mask_token : T1.

(** Lines 20-24 of [SwinTransformerForSimMIM.__call__]: the tokens [x] after
    the patch embedding, blended with the mask token. *)
Definition blend (x : T3) (mask : T3) : option T3 :=
  let B := dim0 x in
  let L := dim1 x in
  let mask_tokens := broadcast_to_BL B L mask_token in
  match reshape_BL1 B L mask with
  | None => None
  | Some mask =>
      match bop3 Qmult x (map3 (fun m => 1 - m) mask),
            bop3 Qmult mask_tokens mask with
      | Some a, Some b => bop3 Qplus a b
      | _, _ => None
      end
  end.

(** [SwinTransformerForSimMIM.__call__] *)
Definition SwinTransformerForSimMIM_call (x : T4) (mask : T3) (train : bool)
    : option T4 :=
  let x := patch_embed x in
  match blend x mask with
  | None => None
  | Some x =>
      let x := swin_body_norm x train in
      let B := dim0 x in
      let L := dim1 x in
      let C := dim2 x in
      let H := Nat.sqrt L in
      let W := H in
      reshape_BHWC B H W C x
  end.

End Encoder.

Section Head.

(** [self.encoder], and [self.decoder]: the 1x1 convolution followed by the
    rearrangement into pixel blocks. *)
Variable encoder : T4 -> T3 -> bool -> option T4.
Variable decoder : T4 -> T4.
Variable patch_size : nat.
Variable in_chans : Z.

(** [1e-5] *)
Definition eps : Q := 1 # 100000.

(** Lines 61-68: the mask at pixel resolution. *)
Definition pixel_mask (mask : T3) : T4 :=
  expand_dims_last
    (repeat_axis2 patch_size (repeat_axis1 patch_size mask)).

(** [SimMIM.__call__] *)
Definition SimMIM_call (x : T4) (mask : T3) (train : bool)
    : option (Q * T4) :=
  match encoder x mask train with
  | None => None
  | Some z =>
      let x_rec := decoder z in
      let mask := pixel_mask mask in
      match bop4 Qminus x x_rec with
      | None => None
      | Some d =>
          let loss_recon := map4 Qabs d in
          match bop4 Qmult loss_recon mask with
          | None => None
          | Some lm =>
              let loss := sum4 lm / (sum4 mask + eps) / inject_Z in_chans in
              Some (loss, x_rec)
          end
      end
  end.

End Head.

End SimMIM.

(** ** The reconstruction loss as the specification words it *)

Module LossSpec.
Import Tensor.

(** The sum of [f 0 .. f (n-1)]. *)
Definition bigsum (n : nat) (f : nat -> Q) : Q :=
  fold_right Qplus 0 (map f (seq 0 n)).

(** The coarse mask at pixel [(i, j)] of image [b]: nearest-neighbour
    upsampling by the patch size [p]. *)
Definition mask_px (p : nat) (mask : T3) (b i j : nat) : Q :=
  at3 mask b (i / p) (j / p).

(** [sum(|image - reconstruction| * mask_px)] over a [(B, H, W, C)] image. *)
Definition masked_l1 (p B H W C : nat) (image rec : T4) (mask : T3) : Q :=
  bigsum B (fun b => bigsum H (fun i => bigsum W (fun j => bigsum C (fun c =>
    Qabs (at4 image b i j c - at4 rec b i j c) * mask_px p mask b i j)))).

(** [sum(mask_px)] *)
Definition mask_px_sum (p B H W : nat) (mask : T3) : Q :=
  bigsum B (fun b => bigsum H (fun i => bigsum W (fun j =>
    mask_px p mask b i j))).

(** [sum(|image - reconstruction| * mask_px) / (sum(mask_px) + eps)
    / in_channels] *)
Definition loss_spec (p : nat) (in_chans : Z) (B H W C : nat)
    (image rec : T4) (mask : T3) : Q :=
  masked_l1 p B H W C image rec mask
  / (mask_px_sum p B H W mask + SimMIM.eps)
  / inject_Z in_chans.

(** Every entry of a mask satisfies [P]. *)
Definition mask_all (P : Q -> Prop) (mask : T3) : Prop :=
  Forall (Forall (Forall P)) mask.

End LossSpec.

(** ** Running metrics *)

Module Metrics.

(** Modelled from the spec: the accumulator of [clu.metrics.Average], which
    is not part of the sources: a [{sum, count}] pair, merged by adding sums
    and counts, reset to [{0, 0}], with [compute() = sum / count], undefined
    ([None]) on an empty accumulator. *)
Record Average := { total : Q; count : Z }.

(** Modelled from the spec: [Average.empty], the reset value. *)
Definition Average_empty : Average := {| total := 0; count := 0 |}.

(** Modelled from the spec: [Average.from_model_output], one update, the
    accumulator of a single loss value. *)
Definition from_model_output (loss : Q) : Average :=
  {| total := loss; count := 1 |}.

(** Modelled from the spec: [Average.merge]. *)
Definition Average_merge (a b : Average) : Average :=
  {| total := total a + total b; count := (count a + count b)%Z |}.

(** Modelled from the spec: [Average.compute]. *)
Definition Average_compute (a : Average) : option Q :=
  if (count a =? 0)%Z then None else Some (total a / inject_Z (count a)).

(** [class Metrics(metrics.Collection)], with its one field [loss]. *)
Record Metrics := { loss : Average }.

(** Modelled from the spec: [Collection.empty]. *)
Definition empty : Metrics := {| loss := Average_empty |}.

(** Modelled from the spec: [Collection.gather_from_model_output(loss=loss)],
    the update made of this replica's loss value. *)
Definition gather_from_model_output (l : Q) : Metrics :=
  {| loss := from_model_output l |}.

(** Modelled from the spec: [Collection.merge], field by field. *)
Definition merge (a b : Metrics) : Metrics :=
  {| loss := Average_merge (loss a) (loss b) |}.

(** Modelled from the spec: [Collection.compute()], the value of each field,
    here of ["loss"]. *)
Definition compute (m : Metrics) : option Q := Average_compute (loss m).

End Metrics.

(** ** The training state and the step functions *)

Module Train.
Import Tensor.

Section State.

(** The parameter tree, the optimizer's state, a collection of constants,
    gradients and PRNG keys. *)
Variables Params OptState Constants Grads Key : Type.

(** [{"params": ..., "swinv2_constants": ..., "simmim_constants": ...}] *)
Record Variables_ := {
  v_params : Params;
  v_swinv2_constants : Constants;
  v_simmim_constants : Constants
}.

(** [optax.GradientTransformation]: [tx.update(grads, opt_state, params)]
    gives the updates, of the type of gradients, and the next state. *)
Record GradientTransformation := {
  tx_update : Grads -> OptState -> Params -> Grads * OptState
}.

(** [module.apply(variables, images, mask=..., train=..., rngs=...)],
    returning [(loss, reconstruction)].  Shapes are fixed when the step
    functions are compiled; a shape error is no value of this type. *)
Definition ApplyFn : Type :=
  Variables_ -> T4 -> T3 -> bool -> option Key -> Q * T4.

(** [class TrainState(train_state.TrainState)] *)
Record TrainState := {
  step : Z;
  apply_fn : ApplyFn;
  params : Params;
  tx : GradientTransformation;
  opt_state : OptState;
  metrics : Metrics.Metrics;
  constants : Constants;
  pt_constants : Constants
}.

(** [state.replace(metrics=m)] and [state.replace(params=p)] *)
Definition replace_metrics (s : TrainState) (m : Metrics.Metrics) : TrainState :=
  {| step := step s; apply_fn := apply_fn s; params := params s; tx := tx s;
     opt_state := opt_state s; metrics := m; constants := constants s;
     pt_constants := pt_constants s |}.

Definition replace_params (s : TrainState) (p : Params) : TrainState :=
  {| step := step s; apply_fn := apply_fn s; params := p; tx := tx s;
     opt_state := opt_state s; metrics := metrics s; constants := constants s;
     pt_constants := pt_constants s |}.

(** [{"images": ..., "masks": ...}] *)
Record Batch := { images : T4; masks : T3 }.

(** What JAX supplies to [train_step]: [jax.random.fold_in],
    the gradient of a scalar function of the parameters, [jax.lax.pmean]
    over the axis ["batch"], and [optax.apply_updates]. *)
Variable fold_in : Key -> Z -> Key.
Variable grad : (Params -> Q) -> Params -> Grads.
Variable pmean : Grads -> Grads.
Variable apply_updates : Params -> Grads -> Params.

(** [TrainState.apply_gradients(grads=grads)] *)
Definition apply_gradients (s : TrainState) (grads : Grads) : TrainState :=
  let (updates, new_opt_state) :=
    tx_update (tx s) grads (opt_state s) (params s) in
  {| step := (step s + 1)%Z; apply_fn := apply_fn s;
     params := apply_updates (params s) updates; tx := tx s;
     opt_state := new_opt_state; metrics := metrics s;
     constants := constants s; pt_constants := pt_constants s |}.

(** [train_step(state, batch, dropout_key)] *)
Definition train_step (state : TrainState) (batch : Batch) (dropout_key : Key)
    : TrainState :=
  let dropout_train_key := fold_in dropout_key (step state) in
  let loss_fn (p : Params) : Q :=
    fst (apply_fn state
           {| v_params := p;
              v_swinv2_constants := constants state;
              v_simmim_constants := pt_constants state |}
           (images batch) (masks batch) true (Some dropout_train_key)) in
  let loss := loss_fn (params state) in
  let grads := grad loss_fn (params state) in
  let grads := pmean grads in
  let state := apply_gradients state grads in
  let metric_updates := Metrics.gather_from_model_output loss in
  let metrics := Metrics.merge (metrics state) metric_updates in
  replace_metrics state metrics.

(** [eval_step], with keyword arguments [state] and [batch]. *)
Definition eval_step (state : TrainState) (batch : Batch) : TrainState :=
  let loss :=
    fst (apply_fn state
           {| v_params := params state;
              v_swinv2_constants := constants state;
              v_simmim_constants := pt_constants state |}
           (images batch) (masks batch) false None) in
  let metric_updates := Metrics.gather_from_model_output loss in
  let metrics := Metrics.merge (metrics state) metric_updates in
  replace_metrics state metrics.

End State.

End Train.

(** ** The checkpoint store *)

Module Checkpoint.

(** A checkpoint record: the epoch index it is stored under, what was
    saved, and the metric it is ranked by. *)
Record CheckpointRecord (M : Type) := {
  epoch_index : Z;
  content : M;
  selection_metric : Q
}.

Section Store.
Variable M : Type.

(** The records of one checkpoint directory, in the order they were
    written; every epoch index names at most one of them. *)
Definition Store := list (CheckpointRecord M).

(** Modelled from the spec: [CheckpointManager.latest_step()] of orbax, the
    highest index stored, [None] for an empty store. *)
Fixpoint latest_step (st : Store) : option Z :=
  match st with
  | [] => None
  | r :: st' =>
      match latest_step st' with
      | None => Some (epoch_index r)
      | Some e => Some (Z.max (epoch_index r) e)
      end
  end.

(** Modelled from the spec: [CheckpointManager.restore(step, items=ckpt)] of
    orbax, the record stored under that index, [None] (an exception) when
    there is none or when the index is itself [None]. *)
Definition restore (st : Store) (epoch : option Z) : option (CheckpointRecord M) :=
  match epoch with
  | None => None
  | Some e => find (fun r => (epoch_index r =? e)%Z) st
  end.

(** Modelled from the spec: [CheckpointManager.save] of orbax, which is not
    part of the sources, under the options the script passes
    ([max_to_keep], [best_fn] the validation loss, [best_mode="min"]).  The
    record is persisted under its epoch index; if more than [max_to_keep]
    records exist, the one with the worst (highest) selection metric is
    evicted, of equally bad ones that of the earliest epoch.  First, the
    removal of the record of one index. *)
Definition delete (e : Z) (st : Store) : Store :=
  filter (fun r => negb (epoch_index r =? e)%Z) st.

(** Modelled from the spec: a record is persisted under its epoch index,
    in the place of one stored there before. *)
Definition persist (r : CheckpointRecord M) (st : Store) : Store :=
  delete (epoch_index r) st ++ [r].

(** Modelled from the spec: [evict_first a b], [a] goes before [b]; the
    higher metric first, of equal ones the earlier epoch. *)
Definition evict_first (a b : CheckpointRecord M) : bool :=
  match selection_metric a ?= selection_metric b with
  | Gt => true
  | Lt => false
  | Eq => (epoch_index a <=? epoch_index b)%Z
  end.

(** Modelled from the spec: the record to evict. *)
Fixpoint worst (st : Store) : option (CheckpointRecord M) :=
  match st with
  | [] => None
  | r :: st' =>
      match worst st' with
      | None => Some r
      | Some w => if evict_first r w then Some r else Some w
      end
  end.

(** Modelled from the spec: [CheckpointManager.save]. *)
Definition save (max_to_keep : nat) (r : CheckpointRecord M) (st : Store)
    : Store :=
  let st := persist r st in
  if (max_to_keep <? length st)%nat
  then match worst st with
       | Some w => delete (epoch_index w) st
       | None => st
       end
  else st.

(** The store after a sequence of saves into an empty directory. *)
Definition saves (max_to_keep : nat) (rs : list (CheckpointRecord M)) : Store :=
  fold_left (fun st r => save max_to_keep r st) rs [].

(** What best-K retention promises of the store [kept] after the saves
    [rs]: it holds the [K] records of lowest metric (all of them, when there
    are fewer), every record evicted being at least as bad as every record
    kept. *)
Definition best_kept (K : nat) (rs : list (CheckpointRecord M))
    (kept : Store) : Prop :=
  exists evicted,
    Permutation rs (kept ++ evicted) /\
    length kept = Nat.min K (length rs) /\
    forall r e, In r kept -> In e evicted ->
                selection_metric r <= selection_metric e.

End Store.

(** [CheckpointManagerOptions(max_to_keep=2, ...)] *)
Definition max_to_keep : nat := 2.

End Checkpoint.

(** ** The script: restore at startup, the training loop

    One replica stands for the [pmap] of the step functions over the
    devices, whose states are copies of one another; iterators are the
    lists of the batches they still yield. *)

Module Program.
Import Tensor Train Checkpoint.

Section Script.
Variables Params OptState Constants Grads Key : Type.

Variable fold_in : Key -> Z -> Key.
Variable grad : (Params -> Q) -> Params -> Grads.
Variable pmean : Grads -> Grads.
Variable apply_updates : Params -> Grads -> Params.

Abbreviation State := (TrainState Params OptState Constants Grads Key).

(** [metrics_history]: the lists under ["train_loss"] and ["val_loss"]; the
    four other keys are never appended to.  A value is what [compute()]
    gave, [None] on an empty accumulator. *)
Record History := {
  train_loss : list (option Q);
  val_loss : list (option Q)
}.

Definition empty_history : History := {| train_loss := []; val_loss := [] |}.

(** [ckpt = {"model": ..., "metrics_history": ...}] *)
Record Ckpt := { model : State; ckpt_history : History }.

(** Lines 366-382.  [restore_params_ckpt] is the store at the path of
    [--restore-params-ckpt], if the option is given; [own] the store of
    this run.  The result is [state], [metrics_history] and
    [latest_epoch]. *)
Definition startup (state : State) (metrics_history : History)
    (restore_params_ckpt : option (Store Ckpt)) (own : Store Ckpt)
    : option (State * History * Z) :=
  let after_transfer :=
    match restore_params_ckpt with
    | Some throwaway =>
        let latest_epoch := latest_step throwaway in
        match restore throwaway latest_epoch with
        | Some restored =>
            Some (replace_params state (params (model (content restored))))
        | None => None
        end
    | None => Some state
    end in
  match after_transfer with
  | None => None
  | Some state =>
      match latest_step own with
      | Some latest_epoch =>
          match restore own (Some latest_epoch) with
          | Some restored =>
              Some (replace_params state (params (model (content restored))),
                    ckpt_history (content restored),
                    latest_epoch)
          | None => None
          end
      | None => Some (state, metrics_history, 0%Z)
      end
  end.

(** Run parameters, lines 238-249 and 323. *)
Record Config := {
  num_epochs : Z;
  batch_size : Z;
  compute_units : Z;
  train_samples : Z;
  val_samples : Z
}.

Definition global_batch_size (c : Config) : Z :=
  (batch_size c * compute_units c)%Z.

Definition num_steps_per_epoch (c : Config) : Z :=
  (train_samples c / global_batch_size c)%Z.

(** One call of [checkpoint_manager.save]: the index, the items and the
    metric passed. *)
Record SaveCall := {
  save_step : Z;
  save_items : Ckpt;
  save_val_loss : option Q
}.

(** The variables the loop updates: [state], [metrics_history], [epochs],
    what is left of the generator [val_ds], and the calls of
    [checkpoint_manager.save] so far. *)
Record Loop := {
  l_state : State;
  l_history : History;
  l_epochs : Z;
  l_val_ds : list Batch;
  l_saves : list SaveCall
}.

(** Lines 416-419: the validation loop over [enumerate(val_ds)], entered at
    index [val_step].  The result is [val_state], the rest of the generator
    and the number of calls of [p_eval_step]. *)
Fixpoint val_loop (c : Config) (val_step : Z) (val_ds : list Batch)
    (val_state : State) : State * list Batch * nat :=
  match val_ds with
  | [] => (val_state, [], O)
  | val_batch :: rest =>
      let val_state := eval_step val_state val_batch in
      if (val_step =? val_samples c / global_batch_size c)%Z
      then (val_state, rest, 1%nat)
      else
        let '(s, r, n) := val_loop c (val_step + 1) rest val_state in
        (s, r, S n)
  end.

(** Lines 403-446: the end of a training epoch.  The flag is [true] when
    the loop is left by [break]. *)
Definition epoch_end (c : Config) (latest_epoch : Z) (l : Loop) : Loop * bool :=
  let state := l_state l in
  let train_loss' :=
    train_loss (l_history l) ++ [Metrics.compute (metrics state)] in
  let state := replace_metrics state Metrics.empty in
  let '(val_state, val_ds, _) := val_loop c 0 (l_val_ds l) state in
  let val_value := Metrics.compute (metrics val_state) in
  let metrics_history :=
    {| train_loss := train_loss';
       val_loss := val_loss (l_history l) ++ [val_value] |} in
  let call :=
    {| save_step := (l_epochs l + latest_epoch)%Z;
       save_items := {| model := val_state; ckpt_history := metrics_history |};
       save_val_loss := val_value |} in
  let epochs := (l_epochs l + 1)%Z in
  ({| l_state := state; l_history := metrics_history; l_epochs := epochs;
      l_val_ds := val_ds; l_saves := l_saves l ++ [call] |},
   (epochs =? num_epochs c)%Z).

(** Lines 390-448: the loop over [enumerate(train_ds)], entered at index
    [step]; [None] is the [ZeroDivisionError] of [% num_steps_per_epoch]. *)
Fixpoint train_loop (c : Config) (latest_epoch : Z) (dropout_keys : Key)
    (step : Z) (train_ds : list Batch) (l : Loop) : option Loop :=
  match train_ds with
  | [] => Some l
  | batch :: rest =>
      let state :=
        train_step fold_in grad pmean apply_updates (l_state l) batch
          dropout_keys in
      let l := {| l_state := state; l_history := l_history l;
                  l_epochs := l_epochs l; l_val_ds := l_val_ds l;
                  l_saves := l_saves l |} in
      if (num_steps_per_epoch c =? 0)%Z then None
      else if ((step + 1) mod num_steps_per_epoch c =? 0)%Z
      then
        let '(l, stop) := epoch_end c latest_epoch l in
        if stop then Some l
        else train_loop c latest_epoch dropout_keys (step + 1) rest l
      else train_loop c latest_epoch dropout_keys (step + 1) rest l
  end.

(** The save calls so far carry the indices [latest_epoch],
    [latest_epoch + 1], ..., one per finished epoch: the invariant of the
    training loop. *)
Definition numbered (latest_epoch : Z) (l : Loop) : Prop :=
  l_epochs l = Z.of_nat (length (l_saves l)) /\
  map save_step (l_saves l)
  = map (fun k => (Z.of_nat k + latest_epoch)%Z) (seq 0 (length (l_saves l))).

(** Line 323 and lines 366-450 together: the steps per epoch (a
    [ZeroDivisionError] for a global batch size of zero), the restore, the
    training. *)
Definition main (c : Config) (state : State)
    (restore_params_ckpt : option (Store Ckpt)) (own : Store Ckpt)
    (dropout_keys : Key) (train_ds val_ds : list Batch) : option Loop :=
  if (global_batch_size c =? 0)%Z then None
  else
    match startup state empty_history restore_params_ckpt own with
    | None => None
    | Some (state, metrics_history, latest_epoch) =>
        train_loop c latest_epoch dropout_keys 0 train_ds
          {| l_state := state; l_history := metrics_history; l_epochs := 0;
             l_val_ds := val_ds; l_saves := [] |}
    end.

End Script.

End Program.

(** ** The learning-rate schedule *)

Module Schedule.

#[local] Open Scope R_scope.

(** Modelled from the spec: [optax.warmup_cosine_decay_schedule], which is
    not part of the sources, over the reals: linear from [init_value] to
    [peak_value] before [warmup_steps], a cosine from [peak_value] to
    [end_value] up to [decay_steps], [end_value] afterwards. *)
Definition warmup_cosine_decay_schedule (init_value peak_value : R)
    (warmup_steps decay_steps : Z) (end_value : R) (step : Z) : R :=
  if (step <? warmup_steps)%Z
  then init_value
       + (peak_value - init_value) * (IZR step / IZR warmup_steps)
  else if (step <=? decay_steps)%Z
  then end_value
       + (peak_value - end_value)
         * ((1 + cos (PI * (IZR (step - warmup_steps)
                            / IZR (decay_steps - warmup_steps)))) / 2)
  else end_value.

(** Lines 324-330: the schedule the script builds from [--learning-rate],
    [--warmup-epochs], [--epochs] and the steps per epoch. *)
Definition learning_rate_schedule (learning_rate : R)
    (num_steps_per_epoch warmup_epochs num_epochs : Z) : Z -> R :=
  warmup_cosine_decay_schedule
    (learning_rate * (1 / 10))
    learning_rate
    (num_steps_per_epoch * warmup_epochs)
    (num_steps_per_epoch * num_epochs)
    (learning_rate * (1 / 100)).

End Schedule.

(** ** A small run *)

Module Example.
Import Tensor Train Checkpoint Program.

(** Parameters and optimizer states are numbers, the rest is trivial. *)
Abbreviation ExState := (TrainState Z Z unit unit unit).
Abbreviation ExCkpt := (Ckpt Z Z unit unit unit).

Definition ex_apply : ApplyFn Z unit unit :=
  fun v _ _ _ _ => (inject_Z (v_params v), []).

Definition ex_tx : GradientTransformation Z Z unit :=
  {| tx_update := fun g o _ => (g, (o + 1)%Z) |}.

Definition ex_state (st p o : Z) : ExState :=
  {| step := st; apply_fn := ex_apply; params := p; tx := ex_tx;
     opt_state := o; metrics := Metrics.empty; constants := tt;
     pt_constants := tt |}.

(** The freshly created state, the state of the run's own checkpoint and
    the state of a pretrained checkpoint. *)
Definition ex_fresh : ExState := ex_state 0 0 0.
Definition ex_resumed : ExState := ex_state 300 7 42.
Definition ex_pretrained : ExState := ex_state 900 5 99.

Definition ex_own_history : History :=
  {| train_loss := [Some (7 # 10)]; val_loss := [Some (1 # 2)] |}.

Definition ex_own_record : CheckpointRecord ExCkpt :=
  {| epoch_index := 3;
     content := {| model := ex_resumed; ckpt_history := ex_own_history |};
     selection_metric := 1 # 2 |}.

Definition ex_own : Store ExCkpt := [ex_own_record].

Definition ex_transfer : Store ExCkpt :=
  [{| epoch_index := 9;
      content := {| model := ex_pretrained; ckpt_history := empty_history |};
      selection_metric := 1 # 4 |}].

Definition ex_batch : Batch := {| images := []; masks := [] |}.

(** Twenty training samples and ten validation samples in global batches
    of five: four steps per epoch. *)
Definition ex_config : Config :=
  {| num_epochs := 2; batch_size := 5; compute_units := 1;
     train_samples := 20; val_samples := 10 |}.

Definition ex_main : option (Loop Z Z unit unit unit) :=
  main (fun k _ => k) (fun _ _ => tt) (fun g => g) (fun p _ => p)
    ex_config ex_fresh (Some ex_transfer) ex_own tt
    (repeat ex_batch 8) (repeat ex_batch 10).

(** Records that carry nothing but their metric. *)
Definition ex_record (e : Z) (m : Q) : CheckpointRecord unit :=
  {| epoch_index := e; content := tt; selection_metric := m |}.

Definition ex_records : list (CheckpointRecord unit) :=
  [ex_record 0 (9 # 10); ex_record 1 (5 # 10);
   ex_record 2 (7 # 10); ex_record 3 (4 # 10)].

End Example.

(** ** Quantities of a run *)

Module Run.
Import Tensor Train Program.

Section Script.
Variables Params OptState Constants Grads Key : Type.

(** The loss [eval_step] computes on a batch: [state.apply_fn] on the
    state's own variables with [train=False]. *)
Definition eval_loss (state : TrainState Params OptState Constants Grads Key)
    (batch : Batch) : Q :=
  fst (apply_fn state
         {| v_params := params state;
            v_swinv2_constants := constants state;
            v_simmim_constants := pt_constants state |}
         (images batch) (masks batch) false None).

(** The number of training steps a run makes of [available] batches: all of
    them, or [num_epochs] epochs of them when that is positive and fewer. *)
Definition steps_to_run (c : Config) (available : nat) : Z :=
  if (0 <? num_epochs c)%Z
  then Z.min (Z.of_nat available) (num_epochs c * num_steps_per_epoch c)
  else Z.of_nat available.

End Script.

End Run.

(** ** The decoder of the head, [SimMIM.setup] *)

Module Decoder.
Import Tensor.

(** The last axis [(c b1 b2)] of the pattern, taken apart: [c] planes of
    [b1] rows of [b2] entries. *)
Definition split_channels (b1 b2 c : nat) (v : T1) : T3 :=
  rows c b1 (rows (c * b1) b2 v).

(** The entry [(d1, d2)] of every plane: one pixel of [c] channels. *)
Definition pixel (planes : T3) (d1 d2 : nat) : T1 :=
  map (fun plane => nth d2 (nth d1 plane []) 0) planes.

(** One row of [w] vectors becomes [b1] rows of [w * b2] pixels. *)
Definition rearrange_row (b1 b2 c : nat) (row : T2) : T3 :=
  map (fun d1 =>
         flat_map (fun v => map (pixel (split_channels b1 b2 c v) d1)
                                (seq 0 b2)) row)
      (seq 0 b1).

(** [einops.rearrange] with the pattern
    ["... h w (c b1 b2) -> ... (h b1) (w b2) c"] on a [(B, h, w, c*b1*b2)]
    array. *)
Definition rearrange (b1 b2 c : nat) (t : T4) : T4 :=
  map (flat_map (rearrange_row b1 b2 c)) t.

(** [self.decoder]: the convolution [conv] with
    [features=self.encoder_stride**2 * 3], then the rearrangement with
    [b1 = b2 = self.encoder_stride]; the [3] of the features is the [c] of
    the pattern. *)
Definition decoder (conv : T4 -> T4) (encoder_stride : nat) (z : T4) : T4 :=
  rearrange encoder_stride encoder_stride 3 (conv z).

End Decoder.

(** ** The parameter tree and its weight-decay mask *)

Module ParamTree.
Import Decay.

(** A tree of nested dictionaries, as [variables["params"]] is. *)
#[local] Unset Elimination Schemes.
Inductive PyTree (A : Type) : Type :=
| Leaf (a : A)
| Dict (items : list (string * PyTree A)).
#[local] Set Elimination Schemes.

Arguments Leaf {A} a.
Arguments Dict {A} items.

(** [jax.tree_util.tree_map_with_path(f, tree)], the path of the root being
    [p]: [f] is applied to every leaf and its key path; an exception of [f]
    ([None]) is one of the whole map. *)
Fixpoint tree_map_with_path {A B : Type} (f : path -> A -> option B)
    (p : path) (t : PyTree A) : option (PyTree B) :=
  match t with
  | Leaf a => option_map Leaf (f p a)
  | Dict items =>
      option_map Dict
        (Tensor.sequence
           (map (fun kv =>
                   match kv with
                   | (k, v) =>
                       option_map (pair k)
                         (tree_map_with_path f (p ++ [{| key := k |}]) v)
                   end) items))
  end.

(** Line 60: [wd_mask = tree_map_with_path(should_decay, params)]. *)
Definition wd_mask {A : Type} (params : PyTree A) : option (PyTree bool) :=
  tree_map_with_path (fun path _ => should_decay path) [] params.

(** [d[k]] on the items of a dictionary. *)
Fixpoint item {A : Type} (k : string) (items : list (string * A)) : option A :=
  match items with
  | [] => None
  | (k', v) :: rest => if String.eqb k k' then Some v else item k rest
  end.

(** [tree[k1][k2]...]: the subtree under a sequence of keys. *)
Fixpoint subtree {A : Type} (t : PyTree A) (keys : list string)
    : option (PyTree A) :=
  match keys with
  | [] => Some t
  | k :: keys' =>
      match t with
      | Leaf _ => None
      | Dict items =>
          match item k items with
          | Some v => subtree v keys'
          | None => None
          end
      end
  end.

(** The key path of a sequence of keys. *)
Definition key_path (keys : list string) : path :=
  map (fun k => {| key := k |}) keys.

End ParamTree.

(** ** Theorems *)

Module DecayFacts.
Import Decay.

Lemma last_entry_snoc (p : path) (e : DictKey) :
  last_entry (p ++ [e]) = Some e.
Proof.
  induction p as [|a p IH]; simpl; [reflexivity|].
  rewrite IH. destruct (p ++ [e]) eqn:E; [|reflexivity].
  destruct p; discriminate.
Qed.

Lemma last_entry_none (p : path) : last_entry p = None <-> p = [].
Proof.
  split; [|intros ->; reflexivity].
  induction p as [|a p IH]; [reflexivity|].
  simpl. destruct p; [discriminate|]. intros H. apply IH in H. discriminate.
Qed.

Lemma contains_In (s : string) (keys : list string) :
  contains s keys = true <-> In s keys.
Proof.
  unfold contains. rewrite existsb_exists. split.
  - intros [x [Hin Heq]]. apply String.eqb_eq in Heq. now subst.
  - intros Hin. exists s. split; [assumption|apply String.eqb_refl].
Qed.

(** C5: on a path ending in [leaf], the decay predicate answers, and it
    answers [true] exactly when the leaf is named "kernel" and no segment of
    the path is named "attention_bias"; any path through an "attention_bias"
    segment and any leaf not named "kernel" (a bias, a scale) gets [false]. *)
Theorem should_decay_spec (ancestors : path) (leaf : DictKey) :
  let p := ancestors ++ [leaf] in
  exists b : bool,
    should_decay p = Some b /\
    (b = true <->
       key leaf = "kernel"%string /\ ~ In "attention_bias"%string (map key p)) /\
    (In "attention_bias"%string (map key p) -> b = false) /\
    (key leaf <> "kernel"%string -> b = false) /\
    (key leaf = "bias"%string \/ key leaf = "scale"%string -> b = false).
Proof.
  intros p. unfold should_decay. subst p. rewrite last_entry_snoc.
  eexists. split; [reflexivity|].
  set (q := map key (ancestors ++ [leaf])).
  assert (Hk : (key leaf =? "kernel")%string = true <-> key leaf = "kernel"%string)
    by apply String.eqb_eq.
  pose proof (contains_In "attention_bias" q) as Hc.
  destruct (key leaf =? "kernel")%string eqn:Ek;
    destruct (contains "attention_bias" q) eqn:Ec; simpl;
    destruct Hk as [Hk1 Hk2]; destruct Hc as [Hc1 Hc2];
    repeat split; intros; try reflexivity; try discriminate;
    try (exfalso; intuition congruence).
  - now apply Hk1.
  - intros Hin. apply Hc2 in Hin. discriminate.
Qed.

(** The claim on [encoder/attention_bias/kernel] and [decoder/kernel]. *)
Lemma should_decay_spec_witness :
  should_decay [{| key := "encoder" |}; {| key := "attention_bias" |};
                {| key := "kernel" |}] = Some false /\
  should_decay [{| key := "decoder" |}; {| key := "kernel" |}] = Some true.
Proof.
  split.
  - destruct (should_decay_spec
                [{| key := "encoder" |}; {| key := "attention_bias" |}]
                {| key := "kernel" |}) as [b [E [_ [Hb _]]]].
    cbn [app] in E. rewrite E, Hb; [reflexivity|]. simpl. auto.
  - destruct (should_decay_spec [{| key := "decoder" |}] {| key := "kernel" |})
      as [b [E [Hb _]]].
    cbn [app] in E. rewrite E. f_equal. apply Hb. split; [reflexivity|].
    simpl. intros [H|[H|[]]]; discriminate.
Defined.

End DecayFacts.

(** *** Lists, rows and broadcasting *)

Module TensorFacts.
Import Tensor.

Lemma sequence_map {A B : Type} (f : A -> option B) (g : A -> B) (l : list A) :
  Forall (fun a => f a = Some (g a)) l ->
  sequence (map f l) = Some (map g l).
Proof.
  induction 1 as [|a l Ha _ IH]; simpl; [reflexivity|].
  now rewrite Ha, IH.
Qed.

Lemma bcast_zipw {A B C : Type} (f : A -> B -> option C) (g : A -> B -> C)
    (xs : list A) (ys : list B) :
  Forall2 (fun x y => f x y = Some (g x y)) xs ys ->
  bcast f xs ys = Some (zipw g xs ys).
Proof.
  intros H. unfold bcast, zipw.
  rewrite (Forall2_length H), Nat.eqb_refl.
  apply sequence_map.
  induction H; simpl; constructor; auto.
Qed.

Lemma length_zipw {A B C : Type} (g : A -> B -> C) xs ys :
  length xs = length ys -> length (zipw g xs ys) = length xs.
Proof.
  intros H. unfold zipw. rewrite length_map, length_combine. lia.
Qed.

Lemma nth_zipw {A B C : Type} (g : A -> B -> C) xs ys i dx dy dz :
  length xs = length ys -> (i < length xs)%nat ->
  nth i (zipw g xs ys) dz = g (nth i xs dx) (nth i ys dy).
Proof.
  intros Hl Hi. unfold zipw.
  rewrite (nth_indep _ dz (g dx dy))
    by (rewrite length_map, length_combine; lia).
  change (g dx dy) with ((fun xy => g (fst xy) (snd xy)) (dx, dy)).
  rewrite map_nth, combine_nth by assumption. reflexivity.
Qed.

Lemma Forall2_nth {A B : Type} (R : A -> B -> Prop) xs ys dx dy :
  length xs = length ys ->
  (forall i, (i < length xs)%nat -> R (nth i xs dx) (nth i ys dy)) ->
  Forall2 R xs ys.
Proof.
  revert ys. induction xs as [|x xs IH]; intros [|y ys] Hl H; try discriminate.
  - constructor.
  - constructor.
    + apply (H 0%nat). simpl. lia.
    + apply IH; [simpl in Hl; lia|].
      intros i Hi. apply (H (S i)). simpl. lia.
Qed.

Lemma bop1_zip (f : Q -> Q -> Q) (a b : T1) :
  length a = length b -> bop1 f a b = Some (zipw f a b).
Proof.
  intros Hl. apply bcast_zipw.
  apply Forall2_nth with (dx := 0) (dy := 0); [assumption|].
  intros; reflexivity.
Qed.

Lemma bop1_stretch (f : Q -> Q -> Q) (xt mt : T1) :
  length mt = 1%nat -> bop1 f xt mt = Some (stretch f xt mt).
Proof.
  destruct mt as [|m [|? ?]]; try discriminate. intros _.
  unfold bop1, bcast, stretch. simpl hd.
  destruct xt as [|x [|x' xt]]; try reflexivity.
  cbn [length Nat.eqb].
  apply (sequence_map (fun x => bop0 f x m) (fun v => f v m)).
  apply Forall_forall. intros; reflexivity.
Qed.

(** Rows of a row-major buffer. *)

Lemma length_rows {A : Type} (n w : nat) (l : list A) :
  length (rows n w l) = n.
Proof. revert l. induction n; intros l; simpl; auto. Qed.

Lemma nth_rows {A : Type} (n w : nat) (l : list A) (b : nat) :
  (b < n)%nat -> nth b (rows n w l) [] = firstn w (skipn (b * w) l).
Proof.
  revert l b. induction n as [|n IH]; intros l b Hb; [lia|].
  destruct b as [|b]; simpl; [reflexivity|].
  rewrite IH by lia. now rewrite skipn_skipn, (Nat.add_comm (b * w)).
Qed.

Lemma nth_firstn_skipn {A : Type} (l : list A) (k w j : nat) (d : A) :
  (j < w)%nat -> nth j (firstn w (skipn k l)) d = nth (k + j) l d.
Proof.
  intros Hj. rewrite nth_firstn.
  destruct (Nat.ltb_spec j w); [|lia].
  revert l. induction k as [|k IH]; intros l; simpl; [reflexivity|].
  destruct l; [destruct j; reflexivity|]. apply IH.
Qed.

Lemma length_concat_uniform {A : Type} (w : nat) (rs : list (list A)) :
  Forall (fun r => length r = w) rs ->
  length (concat rs) = (length rs * w)%nat.
Proof.
  induction 1 as [|r rs Hr _ IH]; simpl; [reflexivity|].
  rewrite length_app, Hr, IH. reflexivity.
Qed.

Lemma nth_concat_uniform {A : Type} (w : nat) (rs : list (list A)) i j d :
  Forall (fun r => length r = w) rs ->
  (j < w)%nat ->
  nth (i * w + j) (concat rs) d = nth j (nth i rs []) d.
Proof.
  intros H Hj. revert i. induction H as [|r rs Hr _ IH]; intros i.
  - simpl. destruct i; destruct j; destruct (_ + _)%nat; reflexivity.
  - simpl concat. destruct i as [|i].
    + simpl. rewrite app_nth1 by lia. reflexivity.
    + rewrite app_nth2 by (simpl; lia).
      replace (S i * w + j - length r)%nat with (i * w + j)%nat
        by (simpl; lia).
      simpl. apply IH.
Qed.

(** Repetition along an axis is nearest-neighbour indexing. *)

Lemma length_repeat_each {A : Type} (n : nat) (l : list A) :
  length (repeat_each n l) = (length l * n)%nat.
Proof.
  unfold repeat_each. induction l as [|a l IH]; simpl; [reflexivity|].
  rewrite length_app, repeat_length, IH. reflexivity.
Qed.

Lemma nth_repeat_each {A : Type} (n : nat) (l : list A) (i : nat) (d : A) :
  (i < length l * n)%nat ->
  nth i (repeat_each n l) d = nth (i / n) l d.
Proof.
  unfold repeat_each. revert i. induction l as [|a l IH]; intros i Hi.
  - simpl in Hi. lia.
  - assert (Hn : n <> 0%nat) by (intros ->; lia).
    simpl flat_map. destruct (Nat.lt_ge_cases i n) as [Hlt|Hge].
    + rewrite app_nth1 by (rewrite repeat_length; lia).
      rewrite Nat.div_small by assumption. simpl.
      apply nth_repeat_lt. assumption.
    + rewrite app_nth2 by (rewrite repeat_length; lia).
      rewrite repeat_length, IH by (simpl in Hi; lia).
      replace i with ((i - n) + 1 * n)%nat at 2 by lia.
      rewrite Nat.div_add by assumption.
      rewrite Nat.add_1_r. reflexivity.
Qed.

(** One level of broadcasting over slices of known shape. *)

Lemma bcast_level {A B C : Type} (f : A -> B -> option C) (g : A -> B -> C)
    (P : A -> Prop) (R : B -> Prop) (xs : list A) (ys : list B) :
  length xs = length ys -> Forall P xs -> Forall R ys ->
  (forall x y, P x -> R y -> f x y = Some (g x y)) ->
  bcast f xs ys = Some (zipw g xs ys).
Proof.
  intros Hl HP HR Hf. apply bcast_zipw.
  revert ys Hl HR. induction HP as [|x xs Hx _ IH]; intros [|y ys] Hl HR;
    try discriminate; constructor.
  - inversion HR; subst. now apply Hf.
  - inversion HR; subst. apply IH; [simpl in Hl; lia|assumption].
Qed.

Lemma Forall_zipw {A B C : Type} (g : A -> B -> C)
    (P : A -> Prop) (R : B -> Prop) (S : C -> Prop) xs ys :
  Forall P xs -> Forall R ys ->
  (forall x y, P x -> R y -> S (g x y)) ->
  Forall S (zipw g xs ys).
Proof.
  intros HP. revert ys. unfold zipw.
  induction HP as [|x xs Hx _ IH]; intros [|y ys] HR Hg; simpl; constructor.
  - inversion HR; subst. now apply Hg.
  - inversion HR; subst. now apply IH.
Qed.

Lemma Forall_nth_in {A : Type} (P : A -> Prop) (l : list A) (i : nat) (d : A) :
  Forall P l -> (i < length l)%nat -> P (nth i l d).
Proof. intros H Hi. rewrite Forall_forall in H. apply H, nth_In, Hi. Qed.

Section Shapes.
Variable f : Q -> Q -> Q.

Lemma shape1_zip C a b :
  shape1 C a -> shape1 C b -> shape1 C (zipw f a b).
Proof. unfold shape1. intros Ha Hb. rewrite length_zipw; congruence. Qed.

Lemma shape1_stretch C a m : shape1 C a -> shape1 C (stretch f a m).
Proof. unfold shape1, stretch. now rewrite length_map. Qed.

Lemma bop2_zip W C a b :
  shape2 W C a -> shape2 W C b ->
  bop2 f a b = Some (zipw (zipw f) a b) /\ shape2 W C (zipw (zipw f) a b).
Proof.
  intros [La Fa] [Lb Fb]. split.
  - apply bcast_level with (P := shape1 C) (R := shape1 C);
      try assumption; try exact (eq_trans La (eq_sym Lb)).
    intros x y Hx Hy. apply bop1_zip. exact (eq_trans Hx (eq_sym Hy)).
  - split; [rewrite length_zipw; [exact La|exact (eq_trans La (eq_sym Lb))]|].
    eapply Forall_zipw; eauto using shape1_zip.
Qed.

Lemma bop2_stretch W C a m :
  shape2 W C a -> shape2 W 1 m ->
  bop2 f a m = Some (zipw (stretch f) a m) /\
  shape2 W C (zipw (stretch f) a m).
Proof.
  intros [La Fa] [Lm Fm]. split.
  - apply bcast_level with (P := shape1 C) (R := shape1 1);
      try assumption; try exact (eq_trans La (eq_sym Lm)).
    intros x y Hx Hy. apply bop1_stretch. exact Hy.
  - split; [rewrite length_zipw; [exact La|exact (eq_trans La (eq_sym Lm))]|].
    eapply Forall_zipw; eauto using shape1_stretch.
Qed.

Lemma bop3_zip H W C a b :
  shape3 H W C a -> shape3 H W C b ->
  bop3 f a b = Some (zipw (zipw (zipw f)) a b) /\
  shape3 H W C (zipw (zipw (zipw f)) a b).
Proof.
  intros [La Fa] [Lb Fb]. split.
  - apply bcast_level with (P := shape2 W C) (R := shape2 W C);
      try assumption; try exact (eq_trans La (eq_sym Lb)).
    intros x y Hx Hy. now apply (bop2_zip Hx Hy).
  - split; [rewrite length_zipw; [exact La|exact (eq_trans La (eq_sym Lb))]|].
    eapply Forall_zipw; eauto. intros x y Hx Hy. now apply (bop2_zip Hx Hy).
Qed.

Lemma bop3_stretch H W C a m :
  shape3 H W C a -> shape3 H W 1 m ->
  bop3 f a m = Some (zipw (zipw (stretch f)) a m) /\
  shape3 H W C (zipw (zipw (stretch f)) a m).
Proof.
  intros [La Fa] [Lm Fm]. split.
  - apply bcast_level with (P := shape2 W C) (R := shape2 W 1);
      try assumption; try exact (eq_trans La (eq_sym Lm)).
    intros x y Hx Hy. now apply (bop2_stretch Hx Hy).
  - split; [rewrite length_zipw; [exact La|exact (eq_trans La (eq_sym Lm))]|].
    eapply Forall_zipw; eauto. intros x y Hx Hy. now apply (bop2_stretch Hx Hy).
Qed.

Lemma bop4_zip B H W C a b :
  shape4 B H W C a -> shape4 B H W C b ->
  bop4 f a b = Some (zipw (zipw (zipw (zipw f))) a b) /\
  shape4 B H W C (zipw (zipw (zipw (zipw f))) a b).
Proof.
  intros [La Fa] [Lb Fb]. split.
  - apply bcast_level with (P := shape3 H W C) (R := shape3 H W C);
      try assumption; try exact (eq_trans La (eq_sym Lb)).
    intros x y Hx Hy. now apply (bop3_zip Hx Hy).
  - split; [rewrite length_zipw; [exact La|exact (eq_trans La (eq_sym Lb))]|].
    eapply Forall_zipw; eauto. intros x y Hx Hy. now apply (bop3_zip Hx Hy).
Qed.

Lemma bop4_stretch B H W C a m :
  shape4 B H W C a -> shape4 B H W 1 m ->
  bop4 f a m = Some (zipw (zipw (zipw (stretch f))) a m) /\
  shape4 B H W C (zipw (zipw (zipw (stretch f))) a m).
Proof.
  intros [La Fa] [Lm Fm]. split.
  - apply bcast_level with (P := shape3 H W C) (R := shape3 H W 1);
      try assumption; try exact (eq_trans La (eq_sym Lm)).
    intros x y Hx Hy. now apply (bop3_stretch Hx Hy).
  - split; [rewrite length_zipw; [exact La|exact (eq_trans La (eq_sym Lm))]|].
    eapply Forall_zipw; eauto. intros x y Hx Hy. now apply (bop3_stretch Hx Hy).
Qed.

End Shapes.

(** Slices of a shaped array. *)

Lemma shape2_nth W C (t : T2) j :
  shape2 W C t -> (j < W)%nat -> shape1 C (nth j t []).
Proof. intros [L F] Hj. apply Forall_nth_in; [assumption|]. now rewrite L. Qed.

Lemma shape3_nth H W C (t : T3) i :
  shape3 H W C t -> (i < H)%nat -> shape2 W C (nth i t []).
Proof. intros [L F] Hi. apply Forall_nth_in; [assumption|]. now rewrite L. Qed.

Lemma shape4_nth B H W C (t : T4) b :
  shape4 B H W C t -> (b < B)%nat -> shape3 H W C (nth b t []).
Proof. intros [L F] Hb. apply Forall_nth_in; [assumption|]. now rewrite L. Qed.

Lemma lt_len {A : Type} {l : list A} {n i : nat} :
  length l = n -> (i < n)%nat -> (i < length l)%nat.
Proof. now intros <-. Qed.

Lemma hd_nth0 {A : Type} (l : list A) (d : A) : hd d l = nth 0 l d.
Proof. destruct l; reflexivity. Qed.

Lemma nth_map_in {A B : Type} (h : A -> B) (l : list A) i da db :
  (i < length l)%nat -> nth i (map h l) db = h (nth i l da).
Proof.
  intros Hi. rewrite (nth_indep _ db (h da)) by (now rewrite length_map).
  apply map_nth.
Qed.

Section Entries.
Variable f : Q -> Q -> Q.

Lemma at1_zip C a b c :
  shape1 C a -> shape1 C b -> (c < C)%nat ->
  at1 (zipw f a b) c = f (at1 a c) (at1 b c).
Proof.
  unfold shape1, at1. intros Ha Hb Hc.
  apply nth_zipw; [congruence|lia].
Qed.

Lemma at1_stretch C a m c :
  shape1 C a -> (c < C)%nat ->
  at1 (stretch f a m) c = f (at1 a c) (at1 m 0).
Proof.
  unfold shape1, at1, stretch. intros Ha Hc.
  rewrite (@nth_map_in _ _ _ a _ 0 _) by lia.
  now rewrite hd_nth0.
Qed.

Lemma at2_zip W C a b j c :
  shape2 W C a -> shape2 W C b -> (j < W)%nat -> (c < C)%nat ->
  at2 (zipw (zipw f) a b) j c = f (at2 a j c) (at2 b j c).
Proof.
  intros Ha Hb Hj Hc. unfold at2.
  rewrite (@nth_zipw _ _ _ (zipw f) a b _ [] [] _)
    by (destruct Ha as [La _], Hb as [Lb _];
        first [exact (eq_trans La (eq_sym Lb))|exact (lt_len La Hj)]).
  eapply at1_zip; eauto using shape2_nth.
Qed.

Lemma at2_stretch W C a m j c :
  shape2 W C a -> shape2 W 1 m -> (j < W)%nat -> (c < C)%nat ->
  at2 (zipw (stretch f) a m) j c = f (at2 a j c) (at2 m j 0).
Proof.
  intros Ha Hm Hj Hc. unfold at2.
  rewrite (@nth_zipw _ _ _ (stretch f) a m _ [] [] _)
    by (destruct Ha as [La _], Hm as [Lm _];
        first [exact (eq_trans La (eq_sym Lm))|exact (lt_len La Hj)]).
  eapply at1_stretch; eauto using shape2_nth.
Qed.

Lemma at3_zip H W C a b i j c :
  shape3 H W C a -> shape3 H W C b ->
  (i < H)%nat -> (j < W)%nat -> (c < C)%nat ->
  at3 (zipw (zipw (zipw f)) a b) i j c = f (at3 a i j c) (at3 b i j c).
Proof.
  intros Ha Hb Hi Hj Hc. unfold at3.
  rewrite (@nth_zipw _ _ _ (zipw (zipw f)) a b _ [] [] _)
    by (destruct Ha as [La _], Hb as [Lb _];
        first [exact (eq_trans La (eq_sym Lb))|exact (lt_len La Hi)]).
  eapply at2_zip; eauto using shape3_nth.
Qed.

Lemma at3_stretch H W C a m i j c :
  shape3 H W C a -> shape3 H W 1 m ->
  (i < H)%nat -> (j < W)%nat -> (c < C)%nat ->
  at3 (zipw (zipw (stretch f)) a m) i j c = f (at3 a i j c) (at3 m i j 0).
Proof.
  intros Ha Hm Hi Hj Hc. unfold at3.
  rewrite (@nth_zipw _ _ _ (zipw (stretch f)) a m _ [] [] _)
    by (destruct Ha as [La _], Hm as [Lm _];
        first [exact (eq_trans La (eq_sym Lm))|exact (lt_len La Hi)]).
  eapply at2_stretch; eauto using shape3_nth.
Qed.

Lemma at4_zip B H W C a b n i j c :
  shape4 B H W C a -> shape4 B H W C b ->
  (n < B)%nat -> (i < H)%nat -> (j < W)%nat -> (c < C)%nat ->
  at4 (zipw (zipw (zipw (zipw f))) a b) n i j c
  = f (at4 a n i j c) (at4 b n i j c).
Proof.
  intros Ha Hb Hn Hi Hj Hc. unfold at4.
  rewrite (@nth_zipw _ _ _ (zipw (zipw (zipw f))) a b _ [] [] _)
    by (destruct Ha as [La _], Hb as [Lb _];
        first [exact (eq_trans La (eq_sym Lb))|exact (lt_len La Hn)]).
  eapply at3_zip; eauto using shape4_nth.
Qed.

Lemma at4_stretch B H W C a m n i j c :
  shape4 B H W C a -> shape4 B H W 1 m ->
  (n < B)%nat -> (i < H)%nat -> (j < W)%nat -> (c < C)%nat ->
  at4 (zipw (zipw (zipw (stretch f))) a m) n i j c
  = f (at4 a n i j c) (at4 m n i j 0).
Proof.
  intros Ha Hm Hn Hi Hj Hc. unfold at4.
  rewrite (@nth_zipw _ _ _ (zipw (zipw (stretch f))) a m _ [] [] _)
    by (destruct Ha as [La _], Hm as [Lm _];
        first [exact (eq_trans La (eq_sym Lm))|exact (lt_len La Hn)]).
  eapply at3_stretch; eauto using shape4_nth.
Qed.

End Entries.

Section Pointwise.
Variable g : Q -> Q.

Lemma shape3_map3 H W C t : shape3 H W C t -> shape3 H W C (map3 g t).
Proof.
  intros [L F]. split; [unfold map3; now rewrite length_map|].
  unfold map3. rewrite Forall_map. eapply Forall_impl; [|exact F].
  intros r [Lr Fr]. split; [unfold map2; now rewrite length_map|].
  unfold map2. rewrite Forall_map. eapply Forall_impl; [|exact Fr].
  intros v Hv. unfold shape1, map1 in *. now rewrite length_map.
Qed.

Lemma at3_map3 H W C t i j c :
  shape3 H W C t -> (i < H)%nat -> (j < W)%nat -> (c < C)%nat ->
  at3 (map3 g t) i j c = g (at3 t i j c).
Proof.
  intros Ht Hi Hj Hc. unfold at3, at2, at1, map3, map2, map1.
  pose proof (shape3_nth Ht Hi) as H2.
  pose proof (shape2_nth H2 Hj) as H1.
  destruct Ht as [L _], H2 as [L2 _].
  rewrite (@nth_map_in _ _ _ t _ [] _) by exact (lt_len L Hi).
  rewrite (@nth_map_in _ _ (map g) (nth i t []) j [] []) by exact (lt_len L2 Hj).
  apply nth_map_in. exact (lt_len H1 Hc).
Qed.

Lemma shape4_map4 B H W C t : shape4 B H W C t -> shape4 B H W C (map4 g t).
Proof.
  intros [L F]. split; [unfold map4; now rewrite length_map|].
  unfold map4. rewrite Forall_map. eapply Forall_impl; [|exact F].
  intros r Hr. now apply shape3_map3.
Qed.

Lemma at4_map4 B H W C t n i j c :
  shape4 B H W C t ->
  (n < B)%nat -> (i < H)%nat -> (j < W)%nat -> (c < C)%nat ->
  at4 (map4 g t) n i j c = g (at4 t n i j c).
Proof.
  intros Ht Hn Hi Hj Hc. unfold at4, map4.
  rewrite (@nth_map_in _ _ _ t _ [] _) by (destruct Ht as [L _]; exact (lt_len L Hn)).
  eapply at3_map3; eauto using shape4_nth.
Qed.

End Pointwise.

End TensorFacts.

(** *** The blend of tokens and mask token *)

Module BlendFacts.
Import Tensor SimMIM TensorFacts.

Lemma Forall_firstn {A : Type} (P : A -> Prop) (n : nat) (l : list A) :
  Forall P l -> Forall P (firstn n l).
Proof.
  intros H. revert n. induction H; intros [|n]; simpl; constructor; auto.
Qed.

Lemma Forall_skipn {A : Type} (P : A -> Prop) (n : nat) (l : list A) :
  Forall P l -> Forall P (skipn n l).
Proof.
  intros H. revert n. induction H; intros [|n]; simpl; auto.
Qed.

Lemma shape3_rows (B L C : nat) (toks : list (list Q)) :
  Forall (shape1 C) toks -> length toks = (B * L)%nat ->
  shape3 B L C (rows B L toks).
Proof.
  revert toks. induction B as [|B IH]; intros toks HF Hl.
  - split; [reflexivity|constructor].
  - simpl rows. destruct (IH (skipn L toks)) as [L' F'].
    { now apply Forall_skipn. }
    { rewrite length_skipn. simpl in Hl. lia. }
    split; [simpl; now rewrite L'|].
    constructor; [|exact F'].
    split; [rewrite length_firstn; simpl in Hl; lia|].
    now apply Forall_firstn.
Qed.

Lemma at3_rows (B L : nat) (toks : list (list Q)) b l c :
  (b < B)%nat -> (l < L)%nat ->
  at3 (rows B L toks) b l c = at1 (nth (b * L + l) toks []) c.
Proof.
  intros Hb Hl. unfold at3, at2.
  rewrite nth_rows by assumption.
  now rewrite nth_firstn_skipn by assumption.
Qed.

Lemma shape3_broadcast (B L : nat) (tok : T1) :
  shape3 B L (length tok) (broadcast_to_BL B L tok).
Proof.
  unfold broadcast_to_BL. split; [apply repeat_length|].
  apply Forall_forall. intros r Hr. apply repeat_spec in Hr. subst r.
  split; [apply repeat_length|].
  apply Forall_forall. intros t Ht. apply repeat_spec in Ht. now subst t.
Qed.

Lemma at3_broadcast (B L : nat) (tok : T1) b l c :
  (b < B)%nat -> (l < L)%nat ->
  at3 (broadcast_to_BL B L tok) b l c = at1 tok c.
Proof.
  intros Hb Hl. unfold at3, at2, broadcast_to_BL.
  rewrite nth_repeat_lt by assumption.
  now rewrite nth_repeat_lt by assumption.
Qed.

(** The row-major buffer of a [(B, gh, gw)] mask. *)

Lemma length_flatten3 (B gh gw : nat) (mask : T3) :
  shape3 B gh gw mask -> length (flatten3 mask) = (B * (gh * gw))%nat.
Proof.
  intros [Lm Fm]. unfold flatten3.
  rewrite (@length_concat_uniform _ (gh * gw)).
  - now rewrite length_map, Lm.
  - rewrite Forall_map. eapply Forall_impl; [|exact Fm].
    intros m [L2 F2]. rewrite (@length_concat_uniform _ gw); [now rewrite L2|].
    exact F2.
Qed.

Lemma nth_flatten3 (B gh gw : nat) (mask : T3) b i j :
  shape3 B gh gw mask -> (b < B)%nat -> (i < gh)%nat -> (j < gw)%nat ->
  nth (b * (gh * gw) + (i * gw + j)) (flatten3 mask) 0 = at3 mask b i j.
Proof.
  intros Hm Hb Hi Hj. unfold flatten3, at3, at2, at1.
  pose proof (shape3_nth Hm Hb) as [L2 F2].
  destruct Hm as [Lm Fm].
  rewrite (@nth_concat_uniform _ (gh * gw)).
  - rewrite (@nth_map_in _ _ _ mask _ [] _) by exact (lt_len Lm Hb).
    apply nth_concat_uniform; assumption.
  - rewrite Forall_map. eapply Forall_impl; [|exact Fm].
    intros m [L3 F3]. rewrite (@length_concat_uniform _ gw); [now rewrite L3|].
    exact F3.
  - nia.
Qed.

Lemma dim0_shape3 H W C (x : T3) : shape3 H W C x -> dim0 x = H.
Proof. now intros [L _]. Qed.

Lemma dim1_shape3 H W C (x : T3) :
  shape3 H W C x -> (0 < H)%nat -> dim1 x = W.
Proof.
  intros [L F] HH. destruct x as [|r x]; [simpl in L; lia|].
  inversion F as [|? ? [Lr _] _]. exact Lr.
Qed.

(** Every entry of the blended tokens, when shapes agree. *)
Lemma blend_entries (tok : T1) (B L : nat) (x mask : T3) :
  shape3 B L (length tok) x -> dim1 x = L ->
  length (flatten3 mask) = (B * L)%nat ->
  exists y,
    blend tok x mask = Some y /\
    shape3 B L (length tok) y /\
    forall b l c, (b < B)%nat -> (l < L)%nat -> (c < length tok)%nat ->
      at3 y b l c
      = at3 x b l c * (1 - nth (b * L + l) (flatten3 mask) 0)
        + at1 tok c * nth (b * L + l) (flatten3 mask) 0.
Proof.
  intros Hx HL Hflat. unfold blend, reshape_BL1.
  rewrite (dim0_shape3 Hx), HL, Nat.mul_1_r, Hflat, Nat.eqb_refl.
  set (mr := rows B L (map (fun v => [v]) (flatten3 mask))).
  assert (Hmr : shape3 B L 1 mr).
  { apply shape3_rows; [|now rewrite length_map].
    apply Forall_forall. intros r Hr. apply in_map_iff in Hr.
    destruct Hr as [v [<- _]]. reflexivity. }
  pose proof (shape3_map3 (fun m => 1 - m) Hmr) as Hm1.
  destruct (bop3_stretch Qmult Hx Hm1) as [E1 S1].
  destruct (bop3_stretch Qmult (shape3_broadcast B L tok) Hmr) as [E2 S2].
  destruct (bop3_zip Qplus S1 S2) as [E3 S3].
  rewrite E1, E2, E3. eexists. split; [reflexivity|]. split; [exact S3|].
  intros b l c Hb Hl Hc.
  rewrite (at3_zip Qplus S1 S2 Hb Hl Hc).
  rewrite (at3_stretch Qmult Hx Hm1 Hb Hl Hc).
  rewrite (at3_stretch Qmult (shape3_broadcast B L tok) Hmr Hb Hl Hc).
  rewrite (at3_map3 (fun m => 1 - m) Hmr Hb Hl Nat.lt_0_1).
  rewrite at3_broadcast by assumption.
  unfold mr. rewrite at3_rows by assumption.
  rewrite (@nth_map_in _ _ _ (flatten3 mask) _ 0 _) by (rewrite Hflat; nia).
  reflexivity.
Qed.

(** C2: where the mask is 0 the blended token is the encoder's token, where
    it is 1 it is the mask token, for every batch entry [b], grid position
    [(i, j)] (token [i * gw + j]) and channel [c]. *)
Theorem blend_substitutes (mask_token : T1) (B gh gw : nat) (x mask : T3) :
  shape3 B (gh * gw) (length mask_token) x ->
  shape3 B gh gw mask ->
  exists y,
    blend mask_token x mask = Some y /\
    shape3 B (gh * gw) (length mask_token) y /\
    forall b i j c,
      (b < B)%nat -> (i < gh)%nat -> (j < gw)%nat ->
      (c < length mask_token)%nat ->
      (at3 mask b i j == 0 ->
         at3 y b (i * gw + j) c == at3 x b (i * gw + j) c) /\
      (at3 mask b i j == 1 ->
         at3 y b (i * gw + j) c == at1 mask_token c).
Proof.
  intros Hx Hm.
  destruct (Nat.eq_dec B 0) as [->|HB].
  - destruct Hx as [Lx _]. destruct x; [|discriminate].
    destruct Hm as [Lm _]. destruct mask; [|discriminate].
    exists []. split; [reflexivity|]. split; [split; [reflexivity|constructor]|].
    intros; lia.
  - assert (HL : dim1 x = (gh * gw)%nat) by (apply (dim1_shape3 Hx); lia).
    destruct (@blend_entries _ _ _ _ _ Hx HL (length_flatten3 Hm))
      as [y [Ey [Sy Hy]]].
    exists y. split; [exact Ey|]. split; [exact Sy|].
    intros b i j c Hb Hi Hj Hc.
    assert (Hl : (i * gw + j < gh * gw)%nat) by nia.
    rewrite (Hy b _ c Hb Hl Hc), (nth_flatten3 Hm Hb Hi Hj).
    split; intros ->; ring.
Qed.

(** The claim at a 1x2x2 mask [[0 1] [1 0]] over two channels. *)
Lemma blend_substitutes_witness :
  exists y,
    blend [9; 9] [[[1; 2]; [3; 4]; [5; 6]; [7; 8]]] [[[0; 1]; [1; 0]]] = Some y /\
    at3 y 0 0 1 == 2 /\ at3 y 0 1 0 == 9.
Proof.
  destruct (@blend_substitutes [9; 9] 1 2 2
              [[[1; 2]; [3; 4]; [5; 6]; [7; 8]]] [[[0; 1]; [1; 0]]])
    as [y [Ey [_ Hy]]].
  - split; [reflexivity|]. repeat constructor.
  - split; [reflexivity|]. repeat constructor.
  - exists y. split; [exact Ey|]. split.
    + apply (Hy 0 0 0 1)%nat; try (simpl; lia). reflexivity.
    + apply (Hy 0 0 1 0)%nat; try (simpl; lia). reflexivity.
Defined.

End BlendFacts.

(** *** The reconstruction loss *)

Module LossFacts.
Import Tensor SimMIM LossSpec TensorFacts.

Lemma map_nth_seq {A B : Type} (h : A -> B) (l : list A) (d : A) :
  map h l = map (fun i => h (nth i l d)) (seq 0 (length l)).
Proof.
  induction l as [|a l IH]; [reflexivity|].
  simpl. f_equal. rewrite <- seq_shift, map_map. exact IH.
Qed.

Lemma fold_sum_ext (f g : nat -> Q) (l : list nat) :
  (forall i, In i l -> f i == g i) ->
  fold_right Qplus 0 (map f l) == fold_right Qplus 0 (map g l).
Proof.
  induction l as [|a l IH]; intros H; simpl; [reflexivity|].
  rewrite (H a) by (now left). rewrite IH; [reflexivity|].
  intros i Hi. apply H. now right.
Qed.

Lemma bigsum_ext (n : nat) (f g : nat -> Q) :
  (forall i, (i < n)%nat -> f i == g i) -> bigsum n f == bigsum n g.
Proof.
  intros H. apply fold_sum_ext. intros i Hi. apply H.
  apply in_seq in Hi. lia.
Qed.

Lemma bigsum_nonneg (n : nat) (f : nat -> Q) :
  (forall i, (i < n)%nat -> 0 <= f i) -> 0 <= bigsum n f.
Proof.
  unfold bigsum. intros H.
  assert (G : forall l, (forall i, In i l -> 0 <= f i) ->
              0 <= fold_right Qplus 0 (map f l)).
  { induction l as [|a l IH]; intros Hl; simpl; [apply Qle_refl|].
    assert (0 <= f a) by (apply Hl; now left).
    assert (0 <= fold_right Qplus 0 (map f l))
      by (apply IH; intros; apply Hl; now right).
    lra. }
  apply G. intros i Hi. apply H. apply in_seq in Hi. lia.
Qed.

Lemma bigsum_zero (n : nat) (f : nat -> Q) :
  (forall i, (i < n)%nat -> f i == 0) -> bigsum n f == 0.
Proof.
  intros H. rewrite (bigsum_ext _ (fun _ => 0) H).
  unfold bigsum. induction (seq 0 n) as [|a l IH]; simpl; [reflexivity|].
  rewrite IH. reflexivity.
Qed.

Lemma sum_map_bigsum {A : Type} (h : A -> Q) (l : list A) (d : A) :
  fold_right Qplus 0 (map h l) = bigsum (length l) (fun i => h (nth i l d)).
Proof. unfold bigsum. now rewrite (map_nth_seq h l d). Qed.

Lemma sum1_bigsum C (t : T1) :
  shape1 C t -> sum1 t = bigsum C (at1 t).
Proof.
  unfold shape1, sum1. intros <-.
  rewrite <- (map_id t) at 1. exact (sum_map_bigsum (fun v => v) t 0).
Qed.

Lemma sum2_bigsum W C (t : T2) :
  shape2 W C t ->
  sum2 t == bigsum W (fun j => bigsum C (fun c => at2 t j c)).
Proof.
  intros Ht. destruct Ht as [L F] eqn:E. unfold sum2.
  rewrite (sum_map_bigsum sum1 t []), L.
  apply bigsum_ext. intros j Hj.
  rewrite (@sum1_bigsum C); [reflexivity|].
  apply Forall_nth_in; [assumption|now rewrite L].
Qed.

Lemma sum3_bigsum H W C (t : T3) :
  shape3 H W C t ->
  sum3 t == bigsum H (fun i => bigsum W (fun j => bigsum C (fun c =>
              at3 t i j c))).
Proof.
  intros [L F]. unfold sum3.
  rewrite (sum_map_bigsum sum2 t []), L.
  apply bigsum_ext. intros i Hi.
  apply (@sum2_bigsum W C).
  apply Forall_nth_in; [assumption|now rewrite L].
Qed.

Lemma sum4_bigsum B H W C (t : T4) :
  shape4 B H W C t ->
  sum4 t == bigsum B (fun b => bigsum H (fun i => bigsum W (fun j =>
              bigsum C (fun c => at4 t b i j c)))).
Proof.
  intros [L F]. unfold sum4.
  rewrite (sum_map_bigsum sum3 t []), L.
  apply bigsum_ext. intros b Hb.
  apply (@sum3_bigsum H W C).
  apply Forall_nth_in; [assumption|now rewrite L].
Qed.

(** The mask at pixel resolution. *)

Lemma shape4_pixel_mask (p B gh gw : nat) (mask : T3) :
  shape3 B gh gw mask ->
  shape4 B (gh * p) (gw * p) 1 (pixel_mask p mask).
Proof.
  intros [L F]. unfold pixel_mask, expand_dims_last, repeat_axis2, repeat_axis1.
  split; [now rewrite !length_map|].
  rewrite !Forall_map. eapply Forall_impl; [|exact F].
  intros m [Lm Fm]. split.
  - now rewrite !length_map, length_repeat_each, Lm.
  - rewrite !Forall_map.
    change (repeat_each p m) with (flat_map (fun a => repeat a p) m).
    apply Forall_flat_map.
    eapply Forall_impl; [|exact Fm].
    intros row Hrow. apply Forall_forall. intros r Hr.
    apply repeat_spec in Hr. subst r. split.
    + now rewrite length_map, length_repeat_each, Hrow.
    + rewrite Forall_map. apply Forall_forall. intros; reflexivity.
Qed.

Lemma at4_pixel_mask (p B gh gw : nat) (mask : T3) b i j :
  shape3 B gh gw mask ->
  (b < B)%nat -> (i < gh * p)%nat -> (j < gw * p)%nat ->
  at4 (pixel_mask p mask) b i j 0 = mask_px p mask b i j.
Proof.
  intros Hm Hb Hi Hj.
  assert (Hp : p <> 0%nat) by (intros ->; lia).
  assert (Hi' : (i / p < gh)%nat)
    by (apply Nat.Div0.div_lt_upper_bound; lia).
  pose proof (shape3_nth Hm Hb) as H2.
  pose proof (shape2_nth H2 Hi') as H1.
  destruct Hm as [L _]. destruct H2 as [L2 _].
  unfold pixel_mask, expand_dims_last, repeat_axis2, repeat_axis1.
  unfold mask_px, at4, at3, at2, at1.
  rewrite !map_map.
  rewrite (@nth_map_in _ _ _ mask _ [] _) by exact (lt_len L Hb).
  rewrite !map_map.
  rewrite (@nth_map_in _ _ _ (repeat_each p (nth b mask [])) _ [] _)
    by (rewrite length_repeat_each, L2; exact Hi).
  rewrite nth_repeat_each by (rewrite L2; exact Hi).
  rewrite (@nth_map_in _ _ _ (repeat_each p _) _ 0 _)
    by (rewrite length_repeat_each, H1; exact Hj).
  simpl nth at 1.
  apply nth_repeat_each. rewrite H1. exact Hj.
Qed.

Lemma at3_mask_all (P : Q -> Prop) (mask : T3) i j c :
  P 0 -> mask_all P mask -> P (at3 mask i j c).
Proof.
  intros P0 H. unfold at3, at2, at1.
  assert (H1 : Forall (Forall P) (nth i mask [])).
  { destruct (nth_in_or_default i mask []) as [Hin| ->]; [|constructor].
    unfold mask_all in H. rewrite Forall_forall in H. now apply H. }
  assert (H2 : Forall P (nth j (nth i mask []) [])).
  { destruct (nth_in_or_default j (nth i mask []) []) as [Hin| ->];
      [|constructor].
    rewrite Forall_forall in H1. now apply H1. }
  destruct (nth_in_or_default c (nth j (nth i mask []) []) 0) as [Hin| ->];
    [|exact P0].
  rewrite Forall_forall in H2. now apply H2.
Qed.

Lemma bigsum_one (f : nat -> Q) : bigsum 1 f == f 0%nat.
Proof. unfold bigsum. simpl. ring. Qed.

Section Loss.
Variable encoder : T4 -> T3 -> bool -> option T4.
Variable decoder : T4 -> T4.
Variable p : nat.
Variable in_chans : Z.
Variables B gh gw C : nat.
Variables (x : T4) (mask : T3) (train : bool) (z : T4).
Hypothesis Hx : shape4 B (gh * p) (gw * p) C x.
Hypothesis Hmask : shape3 B gh gw mask.
Hypothesis Henc : encoder x mask train = Some z.
Hypothesis Hrec : shape4 B (gh * p) (gw * p) C (decoder z).

Lemma SimMIM_call_value :
  exists lm,
    SimMIM_call encoder decoder p in_chans x mask train
    = Some (sum4 lm / (sum4 (pixel_mask p mask) + eps) / inject_Z in_chans,
            decoder z) /\
    sum4 lm == masked_l1 p B (gh * p) (gw * p) C x (decoder z) mask /\
    sum4 (pixel_mask p mask) == mask_px_sum p B (gh * p) (gw * p) mask.
Proof.
  destruct (bop4_zip Qminus Hx Hrec) as [E1 S1].
  pose proof (shape4_map4 Qabs S1) as S2.
  pose proof (shape4_pixel_mask p Hmask) as Spm.
  destruct (bop4_stretch Qmult S2 Spm) as [E3 S3].
  eexists. split; [|split].
  - unfold SimMIM_call. rewrite Henc, E1, E3. reflexivity.
  - rewrite (sum4_bigsum S3). unfold masked_l1.
    apply bigsum_ext; intros b Hb. apply bigsum_ext; intros i Hi.
    apply bigsum_ext; intros j Hj. apply bigsum_ext; intros c Hc.
    rewrite (at4_stretch Qmult S2 Spm Hb Hi Hj Hc).
    rewrite (at4_map4 Qabs S1 Hb Hi Hj Hc).
    rewrite (at4_zip Qminus Hx Hrec Hb Hi Hj Hc).
    rewrite (@at4_pixel_mask p B gh gw mask b i j Hmask Hb Hi Hj).
    reflexivity.
  - rewrite (sum4_bigsum Spm). unfold mask_px_sum.
    apply bigsum_ext; intros b Hb. apply bigsum_ext; intros i Hi.
    apply bigsum_ext; intros j Hj. rewrite bigsum_one.
    rewrite (@at4_pixel_mask p B gh gw mask b i j Hmask Hb Hi Hj). reflexivity.
Qed.

End Loss.

Lemma masked_l1_nonneg p B H W C x rec mask :
  mask_all (fun m => 0 <= m) mask -> 0 <= masked_l1 p B H W C x rec mask.
Proof.
  intros Hm. unfold masked_l1.
  apply bigsum_nonneg; intros b _. apply bigsum_nonneg; intros i _.
  apply bigsum_nonneg; intros j _. apply bigsum_nonneg; intros c _.
  apply Qmult_le_0_compat; [apply Qabs_nonneg|].
  apply (@at3_mask_all (fun m => 0 <= m)); [apply Qle_refl|exact Hm].
Qed.

Lemma mask_px_sum_nonneg p B H W mask :
  mask_all (fun m => 0 <= m) mask -> 0 <= mask_px_sum p B H W mask.
Proof.
  intros Hm. unfold mask_px_sum.
  apply bigsum_nonneg; intros b _. apply bigsum_nonneg; intros i _.
  apply bigsum_nonneg; intros j _.
  apply (@at3_mask_all (fun m => 0 <= m)); [apply Qle_refl|exact Hm].
Qed.

Lemma masked_l1_zero p B H W C x rec mask :
  mask_all (fun m => m == 0) mask -> masked_l1 p B H W C x rec mask == 0.
Proof.
  intros Hm. unfold masked_l1.
  apply bigsum_zero; intros b _. apply bigsum_zero; intros i _.
  apply bigsum_zero; intros j _. apply bigsum_zero; intros c _.
  unfold mask_px.
  rewrite (@at3_mask_all (fun m => m == 0) mask b (i / p)%nat (j / p)%nat);
    [ring|reflexivity|exact Hm].
Qed.

Lemma eps_pos : 0 < eps.
Proof. reflexivity. Qed.

(** C3: on an image and a reconstruction of one shape [(B, gh*p, gw*p, C)]
    and a coarse mask of shape [(B, gh, gw)], [SimMIM.__call__] returns
    [sum(|image - rec| * mask_px) / (sum(mask_px) + eps) / in_chans] with
    [mask_px] the nearest-neighbour upsampling of the mask; with a mask of
    non-negative entries the divisor is positive and (for a positive
    channel count) the loss is non-negative; with an all-zero mask the loss
    is zero. *)
Theorem SimMIM_loss_formula
    (encoder : T4 -> T3 -> bool -> option T4) (decoder : T4 -> T4)
    (p : nat) (in_chans : Z) (B gh gw C : nat)
    (x : T4) (mask : T3) (train : bool) (z : T4) :
  shape4 B (gh * p) (gw * p) C x ->
  shape3 B gh gw mask ->
  encoder x mask train = Some z ->
  shape4 B (gh * p) (gw * p) C (decoder z) ->
  exists loss,
    SimMIM_call encoder decoder p in_chans x mask train
    = Some (loss, decoder z) /\
    loss == loss_spec p in_chans B (gh * p) (gw * p) C x (decoder z) mask /\
    (mask_all (fun m => 0 <= m) mask ->
       0 < mask_px_sum p B (gh * p) (gw * p) mask + eps /\
       ((0 < in_chans)%Z -> 0 <= loss)) /\
    (mask_all (fun m => m == 0) mask -> loss == 0).
Proof.
  intros Hx Hmask Henc Hrec.
  destruct (@SimMIM_call_value encoder decoder p in_chans B gh gw C x mask
              train z Hx Hmask Henc Hrec)
    as [lm [Ecall [Hnum Hden]]].
  eexists. split; [exact Ecall|].
  assert (Hloss : sum4 lm / (sum4 (pixel_mask p mask) + eps) / inject_Z in_chans
                  == loss_spec p in_chans B (gh * p) (gw * p) C x (decoder z) mask).
  { unfold loss_spec. rewrite Hnum, Hden. reflexivity. }
  split; [exact Hloss|]. split.
  - intros Hnn.
    pose proof (@mask_px_sum_nonneg p B (gh * p) (gw * p) mask Hnn) as Hs.
    pose proof (@masked_l1_nonneg p B (gh * p) (gw * p) C x (decoder z) mask Hnn)
      as Hn.
    pose proof eps_pos as He.
    assert (Hd : 0 < mask_px_sum p B (gh * p) (gw * p) mask + eps) by lra.
    split; [exact Hd|].
    intros Hc. rewrite Hloss. unfold loss_spec.
    assert (Hk : 0 < inject_Z in_chans).
    { change 0 with (inject_Z 0). rewrite <- Zlt_Qlt. exact Hc. }
    apply Qle_shift_div_l; [exact Hk|].
    apply Qle_shift_div_l; [exact Hd|]. lra.
  - intros Hz. rewrite Hloss. unfold loss_spec.
    rewrite (@masked_l1_zero p B (gh * p) (gw * p) C x (decoder z) mask Hz).
    unfold Qdiv. ring.
Qed.

(** The claim at a 2x2 image of three channels with its one patch masked. *)
Lemma SimMIM_loss_formula_witness :
  let img := [[[[1; 2; 3]; [1; 2; 3]]; [[1; 2; 3]; [1; 2; 3]]]] in
  let rec := [[[[0; 0; 0]; [1; 1; 1]]; [[0; 0; 0]; [1; 1; 1]]]] in
  exists loss,
    SimMIM_call (fun _ _ _ => Some rec) (fun z => z) 2 3 img [[[1]]] false
    = Some (loss, rec) /\
    loss == loss_spec 2 3 1 2 2 3 img rec [[[1]]] /\
    0 <= loss.
Proof.
  intros img rec.
  destruct (@SimMIM_loss_formula (fun _ _ _ => Some rec) (fun z => z)
              2 3 1 1 1 3 img [[[1]]] false rec)
    as [loss [E [Hl [Hnn _]]]].
  - split; [reflexivity|]. repeat constructor.
  - split; [reflexivity|]. repeat constructor.
  - reflexivity.
  - split; [reflexivity|]. repeat constructor.
  - exists loss. split; [exact E|]. split; [exact Hl|].
    apply Hnn; [|reflexivity].
    repeat constructor. discriminate.
Defined.

End LossFacts.

(** *** Metrics *)

Module MetricsFacts.
Import Metrics.

Lemma Qplus_assoc_eq (a b c : Q) : (a + b) + c = a + (b + c).
Proof.
  destruct a as [an ad], b as [bn bd], c as [cn cd].
  unfold Qplus; simpl. f_equal.
  - rewrite !Pos2Z.inj_mul. ring.
  - now rewrite Pos.mul_assoc.
Qed.

Lemma Qplus_comm_eq (a b : Q) : a + b = b + a.
Proof.
  destruct a as [an ad], b as [bn bd].
  unfold Qplus; simpl. f_equal.
  - ring.
  - apply Pos.mul_comm.
Qed.

(** C8: the merge of accumulators is associative and commutative, it adds
    sums and counts, and [compute()] on the merge of two non-empty
    accumulators is [(s1 + s2) / (c1 + c2)]; the same for the collection
    the step functions merge. *)
Theorem merge_assoc_comm_compute :
  (forall a b c : Average,
     Average_merge (Average_merge a b) c = Average_merge a (Average_merge b c)) /\
  (forall a b : Average, Average_merge a b = Average_merge b a) /\
  (forall a b : Average,
     Average_merge a b
     = {| total := total a + total b; count := (count a + count b)%Z |}) /\
  (forall a b c : Metrics, merge (merge a b) c = merge a (merge b c)) /\
  (forall a b : Metrics, merge a b = merge b a) /\
  (forall (s1 s2 : Q) (c1 c2 : Z),
     (0 < c1)%Z -> (0 < c2)%Z ->
     compute (merge {| loss := {| total := s1; count := c1 |} |}
                    {| loss := {| total := s2; count := c2 |} |})
     = Some ((s1 + s2) / inject_Z (c1 + c2))).
Proof.
  assert (A : forall a b c : Average,
     Average_merge (Average_merge a b) c = Average_merge a (Average_merge b c)).
  { intros a b c. unfold Average_merge; simpl.
    now rewrite Qplus_assoc_eq, Z.add_assoc. }
  assert (C : forall a b : Average, Average_merge a b = Average_merge b a).
  { intros a b. unfold Average_merge.
    now rewrite (Qplus_comm_eq (total a)), (Z.add_comm (count a)). }
  repeat split.
  - exact A.
  - exact C.
  - intros a b c. unfold merge; simpl. now rewrite A.
  - intros a b. unfold merge. now rewrite C.
  - intros s1 s2 c1 c2 H1 H2. unfold compute, merge, Average_compute; simpl.
    destruct (Z.eqb_spec (c1 + c2) 0); [lia|reflexivity].
Qed.

(** The claim on the accumulators [{1, 2}] and [{3, 4}]. *)
Lemma merge_assoc_comm_compute_witness :
  compute (merge {| loss := {| total := 1; count := 2 |} |}
                 {| loss := {| total := 3; count := 4 |} |})
  = Some ((1 + 3) / inject_Z (2 + 4)).
Proof.
  destruct merge_assoc_comm_compute as [_ [_ [_ [_ [_ H]]]]].
  apply H; reflexivity.
Defined.

End MetricsFacts.

(** *** The evaluation step *)

Module StepFacts.
Import Train.

(** C9: [eval_step] changes the metrics field only. *)
Theorem eval_step_frame (Params OptState Constants Grads Key : Type)
    (state : TrainState Params OptState Constants Grads Key) (batch : Batch) :
  let state' := eval_step state batch in
  params state' = params state /\
  opt_state state' = opt_state state /\
  constants state' = constants state /\
  pt_constants state' = pt_constants state /\
  step state' = step state /\
  apply_fn state' = apply_fn state /\
  tx state' = tx state /\
  state' = replace_metrics state (metrics state').
Proof. repeat split. Qed.

(** Both step functions update the metrics by a merge with the update made
    of the loss. *)
Lemma eval_step_metrics (Params OptState Constants Grads Key : Type)
    (state : TrainState Params OptState Constants Grads Key) (batch : Batch) :
  exists loss,
    metrics (eval_step state batch)
    = Metrics.merge (metrics state) (Metrics.gather_from_model_output loss).
Proof. eexists. reflexivity. Qed.


(** The claim on the fresh state of the small run. *)
Lemma eval_step_frame_witness :
  params (eval_step Example.ex_fresh Example.ex_batch) = 0%Z /\
  step (eval_step Example.ex_fresh Example.ex_batch) = 0%Z.
Proof.
  destruct (eval_step_frame Example.ex_fresh Example.ex_batch)
    as [Hp [_ [_ [_ [Hs _]]]]].
  split; [exact Hp|exact Hs].
Defined.

End StepFacts.

(** *** The checkpoint store at startup *)

Module StoreFacts.
Import Checkpoint.

Section Store.
Variable M : Type.

Lemma latest_step_In (st : Store M) (e : Z) :
  latest_step st = Some e ->
  exists r, In r st /\ epoch_index r = e.
Proof.
  revert e. induction st as [|r st IH]; intros e; simpl; [discriminate|].
  destruct (latest_step st) as [e'|].
  - intros [= <-]. destruct (Z.max_spec (epoch_index r) e') as [[_ ->]|[_ ->]].
    + destruct (IH e' eq_refl) as [r' [Hin He]]. exists r'. auto.
    + exists r. auto.
  - intros [= <-]. exists r. auto.
Qed.

Lemma find_epoch (st : Store M) (e : Z) :
  (exists r, In r st /\ epoch_index r = e) ->
  exists r, find (fun r => (epoch_index r =? e)%Z) st = Some r /\
            In r st /\ epoch_index r = e.
Proof.
  intros [r [Hin He]].
  destruct (find (fun r => (epoch_index r =? e)%Z) st) as [r'|] eqn:E.
  - exists r'. split; [reflexivity|].
    apply find_some in E. destruct E as [Hin' He'].
    apply Z.eqb_eq in He'. auto.
  - exfalso. apply (find_none _ _ E) in Hin.
    apply Z.eqb_neq in Hin. contradiction.
Qed.

(** The latest index of a store can be restored. *)
Lemma restore_latest (st : Store M) (e : Z) :
  latest_step st = Some e ->
  exists r, restore st (Some e) = Some r /\ In r st /\ epoch_index r = e.
Proof. intros H. apply find_epoch, latest_step_In, H. Qed.

End Store.

End StoreFacts.

Module StartupFacts.
Import Train Checkpoint Program Example StoreFacts.

Lemma replace_params_twice (Params OptState Constants Grads Key : Type)
    (s : TrainState Params OptState Constants Grads Key) (p q : Params) :
  replace_params (replace_params s p) q = replace_params s q.
Proof. reflexivity. Qed.

(** C1, as the spec states it, fails: with a checkpoint of step 300 and
    optimizer state 42 in the run's own store and a pretrained checkpoint
    given, the state after startup has the step and the optimizer state of
    the fresh state. *)
Lemma resume_restore_full_state_counterexample :
  exists st h,
    startup ex_fresh (empty_history) (Some ex_transfer) ex_own
    = Some (st, h, 3%Z) /\
    restore ex_own (latest_step ex_own) = Some ex_own_record /\
    step st <> step (model (content ex_own_record)) /\
    opt_state st <> opt_state (model (content ex_own_record)) /\
    step st = step ex_fresh /\ opt_state st = opt_state ex_fresh.
Proof.
  eexists. eexists. split; [reflexivity|].
  repeat split; discriminate.
Qed.

(** Startup with a checkpoint in the run's own store. *)
Lemma startup_resumes
    (Params OptState Constants Grads Key : Type)
    (fresh : TrainState Params OptState Constants Grads Key)
    (metrics_history : History)
    (transfer : option (Store (Ckpt Params OptState Constants Grads Key)))
    (own : Store (Ckpt Params OptState Constants Grads Key))
    (latest_epoch : Z) :
  latest_step own = Some latest_epoch ->
  (forall t, transfer = Some t -> latest_step t <> None) ->
  exists restored,
    restore own (Some latest_epoch) = Some restored /\
    epoch_index restored = latest_epoch /\
    startup fresh metrics_history transfer own
    = Some (replace_params fresh (params (model (content restored))),
            ckpt_history (content restored), latest_epoch).
Proof.
  intros Hown Htr.
  destruct (restore_latest own Hown) as [r [Er [_ He]]].
  exists r. split; [exact Er|]. split; [exact He|]. unfold startup.
  destruct transfer as [t|].
  - destruct (latest_step t) as [e'|] eqn:Et;
      [|exfalso; now apply (Htr t eq_refl)].
    destruct (restore_latest t Et) as [r' [Er' _]].
    rewrite Er', Hown, Er. reflexivity.
  - rewrite Hown, Er. reflexivity.
Qed.

(** C1, amended: when the run's own store holds a checkpoint, startup
    succeeds (an explicit transfer store having a checkpoint too) with the
    parameters and the metrics history of the latest own record, whatever a
    transfer restore had put there, and with the step counter, the optimizer
    state, the metrics and the constants of the freshly created state. *)
Theorem resume_restore_params_and_history
    (Params OptState Constants Grads Key : Type)
    (fresh : TrainState Params OptState Constants Grads Key)
    (metrics_history : History)
    (transfer : option (Store (Ckpt Params OptState Constants Grads Key)))
    (own : Store (Ckpt Params OptState Constants Grads Key))
    (latest_epoch : Z) :
  latest_step own = Some latest_epoch ->
  (forall t, transfer = Some t -> latest_step t <> None) ->
  exists restored st,
    restore own (Some latest_epoch) = Some restored /\
    epoch_index restored = latest_epoch /\
    startup fresh metrics_history transfer own
    = Some (st, ckpt_history (content restored), latest_epoch) /\
    params st = params (model (content restored)) /\
    step st = step fresh /\
    opt_state st = opt_state fresh /\
    metrics st = metrics fresh /\
    constants st = constants fresh /\
    pt_constants st = pt_constants fresh.
Proof.
  intros Hown Htr.
  destruct (@startup_resumes _ _ _ _ _ fresh metrics_history transfer own
              latest_epoch Hown Htr)
    as [r [Er [He Es]]].
  exists r. eexists. split; [exact Er|]. split; [exact He|].
  split; [exact Es|]. repeat split.
Qed.

(** The amended claim on the small run. *)
Lemma resume_restore_params_and_history_witness :
  exists st,
    startup ex_fresh empty_history (Some ex_transfer) ex_own
    = Some (st, ex_own_history, 3%Z) /\
    params st = 7%Z /\ step st = 0%Z /\ opt_state st = 0%Z.
Proof.
  destruct (@resume_restore_params_and_history Z Z unit unit unit
              ex_fresh empty_history (Some ex_transfer) ex_own 3%Z)
    as [r [st [Er [_ [Es [Hp [Hs [Ho _]]]]]]]].
  - reflexivity.
  - intros t [= <-]. discriminate.
  - exists st. injection Er as <-. repeat split; assumption.
Defined.

End StartupFacts.

(** *** The validation loop and the save calls *)

Module LoopFacts.
Import Tensor Train Checkpoint Program Example StoreFacts.

Section Script.
Variables Params OptState Constants Grads Key : Type.
Variable fold_in : Key -> Z -> Key.
Variable grad : (Params -> Q) -> Params -> Grads.
Variable pmean : Grads -> Grads.
Variable apply_updates : Params -> Grads -> Params.

Abbreviation State := (TrainState Params OptState Constants Grads Key).
Abbreviation LoopSt := (Loop Params OptState Constants Grads Key).

(** The number of evaluation steps of one validation loop: one more than
    the index the loop breaks at, or all the generator has left. *)
Lemma val_loop_count (c : Config) (val_ds : list Batch) (val_state : State)
    (val_step : Z) :
  let limit := (val_samples c / global_batch_size c)%Z in
  (val_step <= limit)%Z ->
  snd (val_loop c val_step val_ds val_state)
  = Nat.min (length val_ds) (Z.to_nat (limit - val_step) + 1).
Proof.
  intros limit. revert val_state val_step.
  induction val_ds as [|b ds IH]; intros st k Hk; [reflexivity|].
  simpl val_loop. fold limit.
  destruct (Z.eqb_spec k limit) as [->|Hne].
  - cbn [snd length]. lia.
  - specialize (IH (eval_step st b) (k + 1)%Z).
    destruct (val_loop c (k + 1) ds (eval_step st b)) as [[s r] n].
    cbn [snd length] in *. rewrite IH by lia. lia.
Qed.

Lemma epoch_end_saves (c : Config) (latest_epoch : Z) (l : LoopSt) :
  exists call,
    l_saves (fst (epoch_end c latest_epoch l)) = l_saves l ++ [call] /\
    save_step call = (l_epochs l + latest_epoch)%Z /\
    l_epochs (fst (epoch_end c latest_epoch l)) = (l_epochs l + 1)%Z.
Proof.
  unfold epoch_end.
  destruct (val_loop c 0 (l_val_ds l) _) as [[vs vd] n]. simpl.
  eexists. split; [reflexivity|]. split; reflexivity.
Qed.

Lemma epoch_end_numbered (c : Config) (latest_epoch : Z) (l : LoopSt) :
  numbered latest_epoch l ->
  numbered latest_epoch (fst (epoch_end c latest_epoch l)).
Proof.
  intros [He Hs]. destruct (epoch_end_saves c latest_epoch l) as [call [E1 [E2 E3]]].
  unfold numbered. rewrite E1, E3, length_app, map_app.
  simpl length. rewrite Nat.add_1_r, seq_S, map_app, <- Hs. simpl.
  split; [lia|]. rewrite E2, He. reflexivity.
Qed.

Section Loop.
Variables (c : Config) (latest_epoch : Z) (dropout_keys : Key).

Abbreviation loop :=
  (train_loop fold_in grad pmean apply_updates c latest_epoch dropout_keys).

Lemma train_loop_numbered (train_ds : list Batch) :
  forall (step : Z) (l l' : LoopSt),
    numbered latest_epoch l ->
    loop step train_ds l = Some l' ->
    numbered latest_epoch l' /\ (length (l_saves l) <= length (l_saves l'))%nat.
Proof.
  induction train_ds as [|b ds IH]; intros step l l' Hn; simpl.
  - intros [= <-]. auto.
  - destruct (num_steps_per_epoch c =? 0)%Z; [discriminate|].
    set (l1 := {| l_state := _; l_history := l_history l |}).
    assert (Hn1 : numbered latest_epoch l1) by exact Hn.
    destruct (((step + 1) mod num_steps_per_epoch c =? 0)%Z).
    + pose proof (epoch_end_numbered c Hn1) as Hn2.
      destruct (epoch_end_saves c latest_epoch l1) as [call [E1 _]].
      destruct (epoch_end c latest_epoch l1) as [l2 stop]. simpl in *.
      assert (Hle : (length (l_saves l) <= length (l_saves l2))%nat)
        by (rewrite E1, length_app; simpl; lia).
      destruct stop.
      * intros [= <-]. auto.
      * intros H. destruct (IH _ _ _ Hn2 H). split; [assumption|lia].
    + intros H. apply (IH _ _ _ Hn1 H).
Qed.

Lemma train_loop_total (train_ds : list Batch) :
  num_steps_per_epoch c <> 0%Z ->
  forall (step : Z) (l : LoopSt), exists l', loop step train_ds l = Some l'.
Proof.
  intros Hn. induction train_ds as [|b ds IH]; intros step l; simpl.
  - eexists; reflexivity.
  - destruct (Z.eqb_spec (num_steps_per_epoch c) 0); [contradiction|].
    destruct ((step + 1) mod num_steps_per_epoch c =? 0)%Z; [|apply IH].
    destruct (epoch_end c latest_epoch _) as [l2 [|]]; [eexists; reflexivity|].
    apply IH.
Qed.

(** With a full epoch of batches ahead, a save call is made. *)
Lemma train_loop_saves (train_ds : list Batch) :
  forall (step : Z) (l l' : LoopSt),
    numbered latest_epoch l ->
    (0 <= step < num_steps_per_epoch c)%Z ->
    (num_steps_per_epoch c - step <= Z.of_nat (length train_ds))%Z ->
    loop step train_ds l = Some l' ->
    (length (l_saves l) < length (l_saves l'))%nat.
Proof.
  induction train_ds as [|b ds IH]; intros step l l' Hn Hs Hlen; simpl.
  - simpl in Hlen. lia.
  - destruct (Z.eqb_spec (num_steps_per_epoch c) 0); [lia|].
    set (l1 := {| l_state := _; l_history := l_history l |}).
    assert (Hn1 : numbered latest_epoch l1) by exact Hn.
    destruct (Z.eqb_spec ((step + 1) mod num_steps_per_epoch c) 0) as [Hm|Hm].
    + pose proof (epoch_end_numbered c Hn1) as Hn2.
      destruct (epoch_end_saves c latest_epoch l1) as [call [E1 _]].
      destruct (epoch_end c latest_epoch l1) as [l2 stop]. simpl in *.
      assert (Hlt : (length (l_saves l) < length (l_saves l2))%nat)
        by (rewrite E1, length_app; simpl; lia).
      destruct stop.
      * intros [= <-]. exact Hlt.
      * intros H. destruct (train_loop_numbered _ _ Hn2 H). lia.
    + intros H.
      assert (step + 1 < num_steps_per_epoch c)%Z.
      { destruct (Z.eq_dec (step + 1) (num_steps_per_epoch c)) as [E|E]; [|lia].
        rewrite E, Z.mod_same in Hm by lia. contradiction. }
      apply (IH (step + 1)%Z l1 l' Hn1); [lia| |exact H].
      simpl length in Hlen. lia.
Qed.

End Loop.

End Script.

Import StartupFacts.

(** C7, as the spec states it, fails on the code: with ten validation
    samples in global batches of five the loop is to run two evaluation
    steps; on a generator of five batches it runs three, as [val_step]
    counts from zero and the loop breaks after the step of index two. *)
Theorem val_loop_runs_floor_plus_one :
  (val_samples ex_config / global_batch_size ex_config = 2)%Z /\
  snd (val_loop ex_config 0 (repeat ex_batch 5) ex_fresh) = 3%nat.
Proof.
  split; [reflexivity|].
  rewrite val_loop_count by (vm_compute; discriminate).
  reflexivity.
Qed.

(** C10: resuming from the run's own store, whose latest checkpoint has
    index [latest_epoch], the script trains, its k-th save call (k from 0)
    has the index [k + latest_epoch], and with an epoch of batches to train
    on the first save call has the index of the checkpoint restored. *)
Theorem first_save_at_restored_index
    (Params OptState Constants Grads Key : Type)
    (fold_in : Key -> Z -> Key) (grad : (Params -> Q) -> Params -> Grads)
    (pmean : Grads -> Grads) (apply_updates : Params -> Grads -> Params)
    (c : Config) (fresh : TrainState Params OptState Constants Grads Key)
    (transfer : option (Store (Ckpt Params OptState Constants Grads Key)))
    (own : Store (Ckpt Params OptState Constants Grads Key))
    (dropout_keys : Key) (train_ds val_ds : list Batch) (latest_epoch : Z) :
  latest_step own = Some latest_epoch ->
  (forall t, transfer = Some t -> latest_step t <> None) ->
  (0 < num_steps_per_epoch c)%Z ->
  exists restored final,
    restore own (Some latest_epoch) = Some restored /\
    main fold_in grad pmean apply_updates c fresh transfer own dropout_keys
      train_ds val_ds = Some final /\
    l_epochs final = Z.of_nat (length (l_saves final)) /\
    map (@save_step _ _ _ _ _) (l_saves final)
    = map (fun k => (Z.of_nat k + latest_epoch)%Z)
          (seq 0 (length (l_saves final))) /\
    ((num_steps_per_epoch c <= Z.of_nat (length train_ds))%Z ->
     exists call rest,
       l_saves final = call :: rest /\
       save_step call = (0 + latest_epoch)%Z /\
       save_step call = epoch_index restored).
Proof.
  intros Hown Htr Hn.
  destruct (@startup_resumes _ _ _ _ _ fresh (@empty_history) transfer own
              latest_epoch Hown Htr)
    as [r [Er [He Es]]].
  assert (Hg : global_batch_size c <> 0%Z).
  { intros E. unfold num_steps_per_epoch in Hn. rewrite E, Z.div_0_r in Hn. lia. }
  unfold main. destruct (Z.eqb_spec (global_batch_size c) 0); [contradiction|].
  rewrite Es.
  set (l0 := {| l_state := _; l_saves := [] |}).
  assert (H0 : numbered latest_epoch l0) by (split; reflexivity).
  destruct (@train_loop_total _ _ _ _ _ fold_in grad pmean apply_updates c
              latest_epoch dropout_keys train_ds ltac:(lia) 0%Z l0)
    as [final Ef].
  exists r, final. split; [exact Er|]. split; [exact Ef|].
  destruct (@train_loop_numbered _ _ _ _ _ fold_in grad pmean apply_updates c
              latest_epoch dropout_keys train_ds 0%Z l0 final H0 Ef)
    as [[Hep Hix] _].
  split; [exact Hep|]. split; [exact Hix|].
  intros Hlen.
  pose proof (@train_loop_saves _ _ _ _ _ fold_in grad pmean apply_updates c
                latest_epoch dropout_keys train_ds 0%Z l0 final H0
                ltac:(lia) ltac:(lia) Ef) as Hlt.
  destruct (l_saves final) as [|call rest]; [simpl in Hlt; lia|].
  exists call, rest. split; [reflexivity|].
  simpl in Hix. injection Hix as Hc _.
  split; [exact Hc|]. rewrite He. exact Hc.
Qed.

(** The claim on the small run, resumed from epoch 3. *)
Lemma first_save_at_restored_index_witness :
  exists final call rest,
    ex_main = Some final /\
    l_saves final = call :: rest /\
    save_step call = 3%Z.
Proof.
  destruct (@first_save_at_restored_index Z Z unit unit unit
              (fun k _ => k) (fun _ _ => tt) (fun g => g) (fun p _ => p)
              ex_config ex_fresh (Some ex_transfer) ex_own tt
              (repeat ex_batch 8) (repeat ex_batch 10) 3%Z)
    as [r [final [_ [Ef [_ [_ Hfirst]]]]]].
  - reflexivity.
  - intros t [= <-]. discriminate.
  - reflexivity.
  - destruct Hfirst as [call [rest [Es [Hc _]]]].
    + vm_compute. discriminate.
    + exists final, call, rest. split; [exact Ef|]. split; [exact Es|exact Hc].
Defined.

End LoopFacts.

(** *** Best-K retention *)

Module RetentionFacts.
Import Checkpoint Example.

Section Store.
Variable M : Type.

Abbreviation Rec := (CheckpointRecord M).
Abbreviation metric := (@selection_metric M).
Abbreviation epoch := (@epoch_index M).

Lemma delete_In (e : Z) (st : Store M) (r : Rec) :
  In r (delete e st) <-> In r st /\ epoch r <> e.
Proof.
  unfold delete. rewrite filter_In, negb_true_iff, Z.eqb_neq. reflexivity.
Qed.

Lemma delete_absent (e : Z) (st : Store M) :
  ~ In e (map epoch st) -> delete e st = st.
Proof.
  intros H. unfold delete. induction st as [|a st IH]; [reflexivity|].
  simpl in *. destruct (Z.eqb_spec (epoch_index a) e) as [E|E].
  - exfalso. apply H. now left.
  - simpl. f_equal. apply IH. intros Hin. apply H. now right.
Qed.

Lemma delete_present (w : Rec) (st : Store M) :
  NoDup (map epoch st) -> In w st ->
  Permutation st (w :: delete (epoch w) st).
Proof.
  induction st as [|a st IH]; intros Hnd Hin; [contradiction|].
  simpl in Hnd. apply NoDup_cons_iff in Hnd. destruct Hnd as [Ha Hnd].
  unfold delete. simpl filter. fold (delete (epoch w) st).
  destruct (Z.eqb_spec (epoch_index a) (epoch w)) as [E|E]; simpl.
  - assert (a = w).
    { destruct Hin as [Hin|Hin]; [assumption|].
      exfalso. apply Ha. rewrite E. now apply in_map. }
    subst a. rewrite delete_absent by assumption. reflexivity.
  - destruct Hin as [Hin|Hin]; [congruence|].
    rewrite (IH Hnd Hin) at 1. apply perm_swap.
Qed.

Lemma evict_first_true (a b : Rec) :
  evict_first a b = true -> metric b <= metric a.
Proof.
  unfold evict_first.
  destruct (metric a ?= metric b) eqn:E; try discriminate; intros _.
  - apply Qeq_alt in E. rewrite E. apply Qle_refl.
  - apply Qgt_alt in E. now apply Qlt_le_weak.
Qed.

Lemma evict_first_false (a b : Rec) :
  evict_first a b = false -> metric a <= metric b.
Proof.
  unfold evict_first.
  destruct (metric a ?= metric b) eqn:E; try discriminate; intros _.
  - apply Qeq_alt in E. rewrite E. apply Qle_refl.
  - apply Qlt_alt in E. now apply Qlt_le_weak.
Qed.

Lemma worst_spec (st : Store M) :
  match worst st with
  | None => st = []
  | Some w => In w st /\ forall r, In r st -> metric r <= metric w
  end.
Proof.
  induction st as [|a st IH]; simpl; [reflexivity|].
  destruct (worst st) as [w|].
  - destruct IH as [Hin Hmax].
    destruct (evict_first a w) eqn:E.
    + split; [now left|]. intros r [<-|Hr]; [apply Qle_refl|].
      eapply Qle_trans; [apply Hmax, Hr|now apply evict_first_true].
    + split; [now right|]. intros r [<-|Hr]; [|now apply Hmax].
      now apply evict_first_false.
  - subst st. split; [now left|]. intros r [<-|[]]. apply Qle_refl.
Qed.

Lemma save_best_kept (K : nat) (rs : list Rec) (kept : Store M) (r : Rec) :
  NoDup (map epoch (rs ++ [r])) ->
  best_kept K rs kept ->
  best_kept K (rs ++ [r]) (save K r kept).
Proof.
  intros Hnd [evicted [Hperm [Hlen Hle]]].
  rewrite map_app in Hnd. simpl in Hnd.
  assert (Hfresh : ~ In (epoch r) (map epoch rs)).
  { apply NoDup_remove_2 in Hnd. rewrite app_nil_r in Hnd. exact Hnd. }
  assert (Hsub : forall x, In x kept -> In x rs).
  { intros x Hx. apply (Permutation_in x (Permutation_sym Hperm)).
    apply in_or_app. now left. }
  assert (Hkeep : delete (epoch r) kept = kept).
  { apply delete_absent. intros Hin. apply Hfresh.
    apply in_map_iff in Hin. destruct Hin as [x [Ex Hx]].
    rewrite <- Ex. apply in_map, Hsub, Hx. }
  assert (Hperm1 : Permutation (rs ++ [r]) ((kept ++ [r]) ++ evicted)).
  { rewrite Hperm, <- !app_assoc. apply Permutation_app_head.
    apply Permutation_app_comm. }
  assert (Hnd1 : NoDup (map epoch (kept ++ [r]))).
  { assert (Hall : NoDup (map epoch ((kept ++ [r]) ++ evicted))).
    { eapply Permutation_NoDup; [apply Permutation_map, Hperm1|].
      rewrite map_app. exact Hnd. }
    rewrite map_app in Hall. now apply NoDup_app_remove_r in Hall. }
  assert (Hlens : length rs = (length kept + length evicted)%nat).
  { rewrite (Permutation_length Hperm), length_app. reflexivity. }
  unfold save, persist. rewrite Hkeep.
  destruct (Nat.ltb_spec K (length (kept ++ [r]))) as [Hk|Hk];
    rewrite length_app in Hk; simpl in Hk.
  - pose proof (worst_spec (kept ++ [r])) as Hw.
    destruct (worst (kept ++ [r])) as [w|];
      [|destruct kept; discriminate].
    destruct Hw as [Hin Hmax].
    pose proof (@delete_present w (kept ++ [r]) Hnd1 Hin) as Hdel.
    exists (w :: evicted). split; [|split].
    + eapply Permutation_trans; [exact Hperm1|].
      eapply Permutation_trans; [apply Permutation_app_tail, Hdel|].
      simpl. apply Permutation_middle.
    + apply Permutation_length in Hdel. simpl in Hdel.
      rewrite length_app in *. simpl in *. lia.
    + intros x e Hx He. apply delete_In in Hx. destruct Hx as [Hx Hne].
      destruct He as [<-|He]; [now apply Hmax|].
      apply in_app_or in Hx. destruct Hx as [Hx|[<-|[]]]; [now apply Hle|].
      apply in_app_or in Hin. destruct Hin as [Hin|[<-|[]]]; [|congruence].
      eapply Qle_trans; [apply Hmax; apply in_or_app; right; now left|].
      now apply Hle.
  - exists evicted. split; [exact Hperm1|]. split.
    + rewrite !length_app. simpl. lia.
    + assert (evicted = []) by (destruct evicted; [reflexivity|simpl in *; lia]).
      subst evicted. intros x e _ [].
Qed.

Lemma saves_best_kept (K : nat) (rs : list Rec) :
  NoDup (map epoch rs) -> best_kept K rs (saves K rs).
Proof.
  induction rs as [|r rs IH] using rev_ind; intros Hnd.
  - exists []. split; [constructor|]. split; [now rewrite Nat.min_0_r|].
    intros r e [].
  - unfold saves. rewrite fold_left_app. simpl.
    apply save_best_kept; [exact Hnd|].
    apply IH. rewrite map_app in Hnd. now apply NoDup_app_remove_r in Hnd.
Qed.

End Store.

(** C6: after any sequence of saves under distinct epoch indices the store
    holds the [K] records of lowest validation loss seen so far (all of
    them while there are fewer than [K]): every evicted record is at least
    as bad as every record kept; with [K = 2], the losses 0.9, 0.5, 0.7, 0.4
    leave the records of 0.5 and 0.4. *)
Theorem best_K_retention :
  (forall (M : Type) (K : nat) (rs : list (CheckpointRecord M)),
     NoDup (map (@epoch_index M) rs) ->
     best_kept K rs (saves K rs)) /\
  map (@selection_metric unit) (saves max_to_keep ex_records)
  = [5 # 10; 4 # 10].
Proof.
  split; [|reflexivity].
  intros M K rs Hnd. now apply saves_best_kept.
Qed.

(** The claim on the four saves of the example. *)
Lemma best_K_retention_witness :
  best_kept 2 ex_records (saves 2 ex_records).
Proof.
  apply (proj1 best_K_retention).
  repeat constructor; simpl; intuition discriminate.
Defined.

End RetentionFacts.

(** *** The learning-rate schedule *)

Module ScheduleFacts.
Import Schedule.

#[local] Open Scope R_scope.

Section Shape.
Variables init_value peak_value end_value : R.
Variables warmup_steps decay_steps : Z.
Hypothesis Hwarm : (0 < warmup_steps)%Z.
Hypothesis Hdecay : (warmup_steps < decay_steps)%Z.

Abbreviation lr :=
  (warmup_cosine_decay_schedule init_value peak_value warmup_steps
     decay_steps end_value).

Lemma IZR_warm_pos : 0 < IZR warmup_steps.
Proof. now apply IZR_lt. Qed.

Lemma IZR_span_pos : 0 < IZR (decay_steps - warmup_steps).
Proof. apply IZR_lt. lia. Qed.

Lemma lr_warmup (s : Z) :
  (s < warmup_steps)%Z ->
  lr s = init_value
         + (peak_value - init_value) * (IZR s / IZR warmup_steps).
Proof.
  intros H. unfold warmup_cosine_decay_schedule.
  destruct (Z.ltb_spec s warmup_steps); [reflexivity|lia].
Qed.

Lemma lr_cosine (s : Z) :
  (warmup_steps <= s <= decay_steps)%Z ->
  lr s = end_value
         + (peak_value - end_value)
           * ((1 + cos (PI * (IZR (s - warmup_steps)
                              / IZR (decay_steps - warmup_steps)))) / 2).
Proof.
  intros H. unfold warmup_cosine_decay_schedule.
  destruct (Z.ltb_spec s warmup_steps); [lia|].
  destruct (Z.leb_spec s decay_steps); [reflexivity|lia].
Qed.

Lemma lr_after (s : Z) : (decay_steps < s)%Z -> lr s = end_value.
Proof.
  intros H. unfold warmup_cosine_decay_schedule.
  destruct (Z.ltb_spec s warmup_steps); [lia|].
  destruct (Z.leb_spec s decay_steps); [lia|reflexivity].
Qed.

Lemma lr_at_0 : lr 0 = init_value.
Proof.
  rewrite lr_warmup by assumption.
  replace (IZR 0 / IZR warmup_steps) with 0 by (unfold Rdiv; ring). ring.
Qed.

Lemma lr_at_warmup : lr warmup_steps = peak_value.
Proof.
  rewrite lr_cosine by lia. rewrite Z.sub_diag.
  replace (PI * (IZR 0 / IZR (decay_steps - warmup_steps))) with 0
    by (unfold Rdiv; ring).
  rewrite cos_0. lra.
Qed.

Lemma lr_at_decay : lr decay_steps = end_value.
Proof.
  rewrite lr_cosine by lia.
  replace (PI * (IZR (decay_steps - warmup_steps)
                 / IZR (decay_steps - warmup_steps))) with PI
    by (field; apply Rgt_not_eq, IZR_span_pos).
  rewrite cos_PI. lra.
Qed.

(** The argument of the cosine runs from [0] to [PI]. *)
Lemma phase_bounds (s : Z) :
  (warmup_steps <= s <= decay_steps)%Z ->
  0 <= PI * (IZR (s - warmup_steps) / IZR (decay_steps - warmup_steps)) <= PI.
Proof.
  intros H. pose proof IZR_span_pos as Hd. pose proof PI_RGT_0 as Hpi.
  assert (H0 : 0 <= IZR (s - warmup_steps)) by (apply IZR_le; lia).
  assert (H1 : IZR (s - warmup_steps) <= IZR (decay_steps - warmup_steps))
    by (apply IZR_le; lia).
  assert (Hf0 : 0 <= IZR (s - warmup_steps) / IZR (decay_steps - warmup_steps)).
  { apply Rmult_le_pos; [exact H0|]. left. now apply Rinv_0_lt_compat. }
  assert (Hf1 : IZR (s - warmup_steps) / IZR (decay_steps - warmup_steps) <= 1).
  { apply (Rmult_le_reg_r (IZR (decay_steps - warmup_steps))); [exact Hd|].
    unfold Rdiv. rewrite Rmult_assoc, Rinv_l by (now apply Rgt_not_eq). lra. }
  split; [apply Rmult_le_pos; lra|].
  rewrite <- (Rmult_1_r PI) at 2. apply Rmult_le_compat_l; lra.
Qed.

Lemma phase_mono (s t : Z) :
  (s <= t)%Z ->
  PI * (IZR (s - warmup_steps) / IZR (decay_steps - warmup_steps))
  <= PI * (IZR (t - warmup_steps) / IZR (decay_steps - warmup_steps)).
Proof.
  intros H. pose proof IZR_span_pos as Hd. pose proof PI_RGT_0 as Hpi.
  apply Rmult_le_compat_l; [lra|].
  apply Rmult_le_compat_r; [left; now apply Rinv_0_lt_compat|].
  apply IZR_le. lia.
Qed.

Lemma ramp_bounds (s : Z) :
  (0 <= s <= warmup_steps)%Z -> 0 <= IZR s / IZR warmup_steps <= 1.
Proof.
  intros H. pose proof IZR_warm_pos as Hw.
  assert (H0 : 0 <= IZR s) by (apply IZR_le; lia).
  assert (H1 : IZR s <= IZR warmup_steps) by (apply IZR_le; lia).
  split.
  - apply Rmult_le_pos; [exact H0|]. left. now apply Rinv_0_lt_compat.
  - apply (Rmult_le_reg_r (IZR warmup_steps)); [exact Hw|].
    unfold Rdiv. rewrite Rmult_assoc, Rinv_l by (now apply Rgt_not_eq). lra.
Qed.

Lemma lr_nondecreasing (s t : Z) :
  init_value <= peak_value ->
  (0 <= s)%Z -> (s <= t)%Z -> (t <= warmup_steps)%Z -> lr s <= lr t.
Proof.
  intros Hip Hs Hst Ht. pose proof IZR_warm_pos as Hw.
  destruct (Z.eq_dec s warmup_steps) as [->|Hsw].
  - replace t with warmup_steps by lia. lra.
  - rewrite (lr_warmup (s := s)) by lia.
    destruct (Z.eq_dec t warmup_steps) as [->|Htw].
    + rewrite lr_at_warmup.
      pose proof (ramp_bounds (s := s) ltac:(lia)) as [_ H1].
      assert ((peak_value - init_value) * (IZR s / IZR warmup_steps)
              <= (peak_value - init_value) * 1)
        by (apply Rmult_le_compat_l; lra).
      lra.
    + rewrite (lr_warmup (s := t)) by lia.
      apply Rplus_le_compat_l, Rmult_le_compat_l; [lra|].
      apply Rmult_le_compat_r; [left; now apply Rinv_0_lt_compat|].
      apply IZR_le. exact Hst.
Qed.

Lemma lr_nonincreasing (s t : Z) :
  end_value <= peak_value ->
  (warmup_steps <= s)%Z -> (s <= t)%Z -> (t <= decay_steps)%Z ->
  lr t <= lr s.
Proof.
  intros Hep Hs Hst Ht.
  rewrite (lr_cosine (s := s)), (lr_cosine (s := t)) by lia.
  pose proof (phase_bounds (s := s) ltac:(lia)) as [Hs0 Hs1].
  pose proof (phase_bounds (s := t) ltac:(lia)) as [Ht0 Ht1].
  pose proof (cos_decr_1 _ _ Hs0 Hs1 Ht0 Ht1 (phase_mono Hst)) as Hcos.
  apply Rplus_le_compat_l, Rmult_le_compat_l; lra.
Qed.

End Shape.

(** C4: the schedule is a function of the global step that starts at
    [0.1 * peak], is linear up to [peak] at [warmup_steps], follows a cosine
    down to [0.01 * peak] at [decay_steps] and stays there; it does not
    decrease on [[0, warmup_steps]] and does not increase on
    [[warmup_steps, decay_steps]]. *)
Theorem learning_rate_schedule_shape (peak : R)
    (num_steps_per_epoch warmup_epochs num_epochs : Z) :
  let warmup_steps := (num_steps_per_epoch * warmup_epochs)%Z in
  let decay_steps := (num_steps_per_epoch * num_epochs)%Z in
  let lr :=
    learning_rate_schedule peak num_steps_per_epoch warmup_epochs num_epochs in
  0 <= peak ->
  (0 < warmup_steps)%Z ->
  (warmup_steps < decay_steps)%Z ->
  lr 0%Z = peak * (1 / 10) /\
  lr warmup_steps = peak /\
  lr decay_steps = peak * (1 / 100) /\
  (forall s, (decay_steps < s)%Z -> lr s = peak * (1 / 100)) /\
  (forall s, (0 <= s < warmup_steps)%Z ->
     lr s = peak * (1 / 10)
            + (peak - peak * (1 / 10)) * (IZR s / IZR warmup_steps)) /\
  (forall s, (warmup_steps <= s <= decay_steps)%Z ->
     lr s = peak * (1 / 100)
            + (peak - peak * (1 / 100))
              * ((1 + cos (PI * (IZR (s - warmup_steps)
                                 / IZR (decay_steps - warmup_steps)))) / 2)) /\
  (forall s t, (0 <= s)%Z -> (s <= t)%Z -> (t <= warmup_steps)%Z ->
     lr s <= lr t) /\
  (forall s t, (warmup_steps <= s)%Z -> (s <= t)%Z -> (t <= decay_steps)%Z ->
     lr t <= lr s).
Proof.
  intros warmup_steps decay_steps lr Hp Hw Hd.
  unfold lr, learning_rate_schedule. fold warmup_steps decay_steps.
  repeat split.
  - now apply lr_at_0.
  - now apply lr_at_warmup.
  - now apply lr_at_decay.
  - intros s Hs. now apply lr_after.
  - intros s Hs. apply lr_warmup. lia.
  - intros s Hs. now apply lr_cosine.
  - intros s t H0 Hst Ht. apply lr_nondecreasing; try assumption. lra.
  - intros s t H0 Hst Ht. apply lr_nonincreasing; try assumption. lra.
Qed.

(** The claim at [peak = 1e-3] with two steps per epoch, five warmup epochs
    and fifty epochs: ten warmup steps of a hundred. *)
Lemma learning_rate_schedule_shape_witness :
  let lr := learning_rate_schedule (1 / 1000) 2 5 50 in
  lr 0%Z = 1 / 10000 /\ lr 10%Z = 1 / 1000 /\ lr 100%Z = 1 / 100000 /\
  (forall s t, (0 <= s)%Z -> (s <= t)%Z -> (t <= 10)%Z -> lr s <= lr t) /\
  (forall s t, (10 <= s)%Z -> (s <= t)%Z -> (t <= 100)%Z -> lr t <= lr s).
Proof.
  intros lr.
  destruct (@learning_rate_schedule_shape (1 / 1000) 2 5 50)
    as [H0 [H10 [H100 [_ [_ [_ [Hup Hdown]]]]]]].
  - lra.
  - reflexivity.
  - reflexivity.
  - change (2 * 5)%Z with 10%Z in *. change (2 * 50)%Z with 100%Z in *.
    fold lr in H0, H10, H100, Hup, Hdown.
    split; [rewrite H0; lra|]. split; [rewrite H10; lra|].
    split; [rewrite H100; lra|]. split; assumption.
Defined.

End ScheduleFacts.

(** *** The training loop: steps, epochs and errors *)

Module RunFacts.
Import Tensor Train Checkpoint Program Example Run LoopFacts.

Lemma div_succ_multiple (k n : Z) :
  (0 < n)%Z -> ((k + 1) mod n = 0)%Z -> ((k + 1) / n = k / n + 1)%Z.
Proof.
  intros Hn Hm.
  pose proof (Z.div_mod (k + 1) n ltac:(lia)) as E. rewrite Hm in E.
  assert (H : ((k + 1) / n - 1 = k / n)%Z)
    by (apply (Z.div_unique_pos k n ((k + 1) / n - 1) (n - 1)); lia).
  lia.
Qed.

Lemma div_succ_other (k n : Z) :
  (0 < n)%Z -> ((k + 1) mod n <> 0)%Z -> ((k + 1) / n = k / n)%Z.
Proof.
  intros Hn Hm.
  pose proof (Z.div_mod (k + 1) n ltac:(lia)) as E.
  pose proof (Z.mod_pos_bound (k + 1) n Hn) as B.
  apply (Z.div_unique_pos k n ((k + 1) / n) ((k + 1) mod n - 1)); lia.
Qed.

Section Script.
Variables Params OptState Constants Grads Key : Type.
Variable fold_in : Key -> Z -> Key.
Variable grad : (Params -> Q) -> Params -> Grads.
Variable pmean : Grads -> Grads.
Variable apply_updates : Params -> Grads -> Params.

Abbreviation State := (TrainState Params OptState Constants Grads Key).
Abbreviation LoopSt := (Loop Params OptState Constants Grads Key).
Abbreviation tstep := (train_step fold_in grad pmean apply_updates).

Lemma train_step_step (state : State) (batch : Batch) (key : Key) :
  step (tstep state batch key) = (step state + 1)%Z.
Proof.
  unfold train_step, apply_gradients.
  now destruct (tx_update _ _ _ _).
Qed.

Lemma epoch_end_state (c : Config) (latest_epoch : Z) (l : LoopSt) :
  l_state (fst (epoch_end c latest_epoch l))
  = replace_metrics (l_state l) Metrics.empty.
Proof.
  unfold epoch_end. now destruct (val_loop c 0 (l_val_ds l) _) as [[vs vd] n].
Qed.

Lemma epoch_end_stop (c : Config) (latest_epoch : Z) (l : LoopSt) :
  snd (epoch_end c latest_epoch l) = (l_epochs l + 1 =? num_epochs c)%Z.
Proof.
  unfold epoch_end. now destruct (val_loop c 0 (l_val_ds l) _) as [[vs vd] n].
Qed.

Section Loop.
Variables (c : Config) (latest_epoch : Z) (dropout_keys : Key).
Hypothesis Hn : (0 < num_steps_per_epoch c)%Z.

Abbreviation nspe := (num_steps_per_epoch c).
Abbreviation loop :=
  (train_loop fold_in grad pmean apply_updates c latest_epoch dropout_keys).

(** The steps still to run when the loop is at index [k]. *)
Let todo (k : Z) (ds : list Batch) : Z :=
  if (0 <? num_epochs c)%Z
  then Z.min (Z.of_nat (length ds)) (num_epochs c * nspe - k)
  else Z.of_nat (length ds).

Lemma train_loop_counts (train_ds : list Batch) :
  forall (k : Z) (l : LoopSt),
    (0 <= k)%Z ->
    l_epochs l = (k / nspe)%Z ->
    ((num_epochs c <= 0)%Z \/ (k < num_epochs c * nspe)%Z) ->
    exists l',
      loop k train_ds l = Some l' /\
      step (l_state l') = (step (l_state l) + todo k train_ds)%Z /\
      l_epochs l' = ((k + todo k train_ds) / nspe)%Z /\
      Z.of_nat (length (l_saves l'))
      = (Z.of_nat (length (l_saves l))
         + ((k + todo k train_ds) / nspe - k / nspe))%Z.
Proof.
  induction train_ds as [|b ds IH]; intros k l Hk He Hlim.
  - exists l. unfold todo. simpl.
    assert (T0 : (if (0 <? num_epochs c)%Z
                  then Z.min 0 (num_epochs c * nspe - k) else 0)%Z = 0%Z)
      by (destruct (Z.ltb_spec 0 (num_epochs c)); lia).
    rewrite T0, !Z.add_0_r, Z.sub_diag, Z.add_0_r. auto.
  - simpl loop.
    destruct (Z.eqb_spec nspe 0) as [E|_]; [lia|].
    set (l1 := {| l_state := tstep (l_state l) b dropout_keys;
                  l_history := l_history l |}).
    assert (Hs1 : step (l_state l1) = (step (l_state l) + 1)%Z)
      by apply train_step_step.
    assert (Htodo : forall T',
               T' = todo (k + 1) ds ->
               (num_epochs c <= 0 \/ k + 1 < num_epochs c * nspe)%Z ->
               todo k (b :: ds) = (1 + T')%Z).
    { intros T' -> Hl. unfold todo. simpl length.
      destruct (Z.ltb_spec 0 (num_epochs c)); lia. }
    destruct (Z.eqb_spec ((k + 1) mod nspe) 0) as [Hm|Hm].
    + pose proof (div_succ_multiple k Hn Hm) as Hd.
      pose proof (epoch_end_state c latest_epoch l1) as Est.
      pose proof (epoch_end_stop c latest_epoch l1) as Estop.
      destruct (epoch_end_saves c latest_epoch l1) as [call [Esv [_ Eep]]].
      destruct (epoch_end c latest_epoch l1) as [l2 stop].
      cbn [fst snd] in Est, Estop, Esv, Eep.
      unfold l1 in Esv, Eep, Estop; cbn [l_saves l_epochs] in Esv, Eep, Estop.
      assert (He2 : l_epochs l2 = ((k + 1) / nspe)%Z)
        by (rewrite Eep, He, Hd; reflexivity).
      assert (Hst2 : step (l_state l2) = (step (l_state l) + 1)%Z)
        by (rewrite Est; exact Hs1).
      assert (Hsv2 : Z.of_nat (length (l_saves l2))
                     = (Z.of_nat (length (l_saves l)) + 1)%Z)
        by (rewrite Esv, length_app; simpl; lia).
      pose proof (Z.div_mod (k + 1) nspe ltac:(lia)) as Edm.
      rewrite Hm, Z.add_0_r in Edm.
      destruct stop.
      * symmetry in Estop. apply Z.eqb_eq in Estop.
        assert (Hq : ((k + 1) / nspe = num_epochs c)%Z)
          by (rewrite Hd, <- He; exact Estop).
        assert (HN : (k + 1 = num_epochs c * nspe)%Z)
          by (rewrite <- Hq, Z.mul_comm; exact Edm).
        assert (HT : todo k (b :: ds) = 1%Z).
        { unfold todo. simpl length.
          destruct (Z.ltb_spec 0 (num_epochs c)); [lia|].
          assert (0 < (k + 1) / nspe)%Z by nia. lia. }
        exists l2. rewrite HT. repeat split; try assumption; lia.
      * symmetry in Estop. apply Z.eqb_neq in Estop.
        assert (Hq : ((k + 1) / nspe <> num_epochs c)%Z)
          by (rewrite Hd, <- He; exact Estop).
        assert (Hlim2 : (num_epochs c <= 0 \/ k + 1 < num_epochs c * nspe)%Z).
        { destruct Hlim as [Hl|Hl]; [now left|right].
          assert (k + 1 <> num_epochs c * nspe)%Z.
          { intros E. apply Hq. rewrite E. apply Z.div_mul. lia. }
          lia. }
        destruct (IH (k + 1)%Z l2 ltac:(lia) He2 Hlim2)
          as [l' [El [Hst [Hep Hsv]]]].
        exists l'. rewrite (Htodo _ eq_refl Hlim2).
        replace (k + (1 + todo (k + 1) ds))%Z
          with (k + 1 + todo (k + 1) ds)%Z by lia.
        repeat split; try assumption; lia.
    + pose proof (div_succ_other k Hn Hm) as Hd.
      assert (Hlim2 : (num_epochs c <= 0 \/ k + 1 < num_epochs c * nspe)%Z).
      { destruct Hlim as [Hl|Hl]; [now left|right].
        assert (k + 1 <> num_epochs c * nspe)%Z.
        { intros E. apply Hm. rewrite E. apply Z.mod_mul. lia. }
        lia. }
      destruct (IH (k + 1)%Z l1 ltac:(lia)
                  ltac:(unfold l1; cbn [l_epochs]; lia) Hlim2)
        as [l' [El [Hst [Hep Hsv]]]].
      exists l'. rewrite (Htodo _ eq_refl Hlim2).
      replace (k + (1 + todo (k + 1) ds))%Z
        with (k + 1 + todo (k + 1) ds)%Z by lia.
      unfold l1 in Hsv; cbn [l_saves] in Hsv.
      repeat split; try assumption; lia.
Qed.

End Loop.

(** X1: with at least [num_epochs] epochs of batches to train on (and a
    positive number of epochs and of steps per epoch) the loop stops after
    exactly [num_epochs * num_steps_per_epoch] training steps, having counted
    [num_epochs] epochs and called [save] once for each. *)
Theorem train_loop_complete_run (c : Config) (latest_epoch : Z)
    (dropout_keys : Key) (train_ds : list Batch) (l : LoopSt) :
  (0 < num_steps_per_epoch c)%Z ->
  (0 < num_epochs c)%Z ->
  (num_epochs c * num_steps_per_epoch c <= Z.of_nat (length train_ds))%Z ->
  l_epochs l = 0%Z ->
  exists l',
    train_loop fold_in grad pmean apply_updates c latest_epoch dropout_keys
      0 train_ds l = Some l' /\
    step (l_state l')
    = (step (l_state l) + num_epochs c * num_steps_per_epoch c)%Z /\
    l_epochs l' = num_epochs c /\
    Z.of_nat (length (l_saves l'))
    = (Z.of_nat (length (l_saves l)) + num_epochs c)%Z.
Proof.
  intros Hn He Hlen H0.
  destruct (@train_loop_counts c latest_epoch dropout_keys Hn train_ds 0%Z l
              ltac:(lia) ltac:(rewrite H0; now rewrite Z.div_0_l by lia)
              ltac:(right; nia))
    as [l' [El [Hst [Hep Hsv]]]].
  assert (HT : (if (0 <? num_epochs c)%Z
                then Z.min (Z.of_nat (length train_ds))
                       (num_epochs c * num_steps_per_epoch c - 0)
                else Z.of_nat (length train_ds))
               = (num_epochs c * num_steps_per_epoch c)%Z).
  { destruct (Z.ltb_spec 0 (num_epochs c)); lia. }
  rewrite HT in Hst, Hep, Hsv.
  rewrite Z.add_0_l, Z.div_mul in Hep, Hsv by lia.
  rewrite Z.div_0_l in Hsv by lia.
  exists l'. repeat split; try assumption. lia.
Qed.

(** X2: with [num_epochs] zero or negative the test [epochs == num_epochs]
    is never met: the loop trains on every batch there is and ends an epoch
    (with its save call) every [num_steps_per_epoch] steps. *)
Theorem train_loop_without_epoch_limit (c : Config) (latest_epoch : Z)
    (dropout_keys : Key) (train_ds : list Batch) (l : LoopSt) :
  (0 < num_steps_per_epoch c)%Z ->
  (num_epochs c <= 0)%Z ->
  l_epochs l = 0%Z ->
  exists l',
    train_loop fold_in grad pmean apply_updates c latest_epoch dropout_keys
      0 train_ds l = Some l' /\
    step (l_state l') = (step (l_state l) + Z.of_nat (length train_ds))%Z /\
    l_epochs l' = (Z.of_nat (length train_ds) / num_steps_per_epoch c)%Z /\
    Z.of_nat (length (l_saves l'))
    = (Z.of_nat (length (l_saves l))
       + Z.of_nat (length train_ds) / num_steps_per_epoch c)%Z.
Proof.
  intros Hn He H0.
  destruct (@train_loop_counts c latest_epoch dropout_keys Hn train_ds 0%Z l
              ltac:(lia) ltac:(rewrite H0; now rewrite Z.div_0_l by lia)
              ltac:(now left))
    as [l' [El [Hst [Hep Hsv]]]].
  assert (HT : (if (0 <? num_epochs c)%Z
                then Z.min (Z.of_nat (length train_ds))
                       (num_epochs c * num_steps_per_epoch c - 0)
                else Z.of_nat (length train_ds))
               = Z.of_nat (length train_ds)).
  { destruct (Z.ltb_spec 0 (num_epochs c)); lia. }
  rewrite HT in Hst, Hep, Hsv.
  rewrite Z.add_0_l in Hep, Hsv. rewrite Z.div_0_l in Hsv by lia.
  exists l'. repeat split; try assumption. lia.
Qed.


End Script.

(** The loop on the small run: two epochs of four steps. *)
Lemma train_loop_complete_run_witness :
  exists l',
    train_loop (fun k _ => k) (fun _ _ => tt) (fun g => g) (fun p _ => p)
      ex_config 0 tt 0 (repeat ex_batch 10)
      {| l_state := ex_fresh; l_history := empty_history; l_epochs := 0;
         l_val_ds := []; l_saves := [] |} = Some l' /\
    step (l_state l') = 8%Z /\ l_epochs l' = 2%Z /\
    length (l_saves l') = 2%nat.
Proof.
  destruct (@train_loop_complete_run Z Z unit unit unit
              (fun k _ => k) (fun _ _ => tt) (fun g => g) (fun p _ => p)
              ex_config 0%Z tt (repeat ex_batch 10)
              {| l_state := ex_fresh; l_history := empty_history;
                 l_epochs := 0; l_val_ds := []; l_saves := [] |})
    as [l' [El [Hs [He Hsv]]]]; try reflexivity.
  - vm_compute. discriminate.
  - exists l'. split; [exact El|]. split; [exact Hs|]. split; [exact He|].
    simpl in Hsv. lia.
Defined.

(** The loop with [--epochs 0] on six batches, four steps per epoch. *)
Lemma train_loop_without_epoch_limit_witness :
  let c := {| num_epochs := 0; batch_size := 5; compute_units := 1;
              train_samples := 20; val_samples := 10 |} in
  exists l',
    train_loop (fun k _ => k) (fun _ _ => tt) (fun g => g) (fun p _ => p)
      c 0 tt 0 (repeat ex_batch 6)
      {| l_state := ex_fresh; l_history := empty_history; l_epochs := 0;
         l_val_ds := []; l_saves := [] |} = Some l' /\
    step (l_state l') = 6%Z /\ l_epochs l' = 1%Z.
Proof.
  intros c.
  destruct (@train_loop_without_epoch_limit Z Z unit unit unit
              (fun k _ => k) (fun _ _ => tt) (fun g => g) (fun p _ => p)
              c 0%Z tt (repeat ex_batch 6)
              {| l_state := ex_fresh; l_history := empty_history;
                 l_epochs := 0; l_val_ds := []; l_saves := [] |})
    as [l' [El [Hs [He _]]]]; try reflexivity; try (unfold c; simpl; lia).
  exists l'. split; [exact El|]. split; [exact Hs|exact He].
Defined.

End RunFacts.

(** *** The end of an epoch: validation, history, checkpoint *)

Module EpochFacts.
Import Tensor Train Checkpoint Program Example Run LoopFacts.

Section Script.
Variables Params OptState Constants Grads Key : Type.
Variable fold_in : Key -> Z -> Key.
Variable grad : (Params -> Q) -> Params -> Grads.
Variable pmean : Grads -> Grads.
Variable apply_updates : Params -> Grads -> Params.

Abbreviation State := (TrainState Params OptState Constants Grads Key).
Abbreviation LoopSt := (Loop Params OptState Constants Grads Key).

(** Two states that differ in their metrics at most. *)
Let same_model (a b : State) : Prop :=
  replace_metrics a Metrics.empty = replace_metrics b Metrics.empty.

Lemma val_loop_rest (c : Config) (val_ds : list Batch) :
  forall (val_step : Z) (val_state : State),
    snd (fst (val_loop c val_step val_ds val_state))
    = skipn (snd (val_loop c val_step val_ds val_state)) val_ds.
Proof.
  induction val_ds as [|b ds IH]; intros k st; [reflexivity|].
  simpl val_loop.
  destruct (k =? val_samples c / global_batch_size c)%Z; [reflexivity|].
  specialize (IH (k + 1)%Z (eval_step st b)).
  destruct (val_loop c (k + 1) ds (eval_step st b)) as [[s r] n].
  exact IH.
Qed.

Lemma val_loop_model (c : Config) (val_ds : list Batch) :
  forall (val_step : Z) (val_state : State),
    same_model (fst (fst (val_loop c val_step val_ds val_state))) val_state.
Proof.
  induction val_ds as [|b ds IH]; intros k st; [reflexivity|].
  simpl val_loop.
  destruct (k =? val_samples c / global_batch_size c)%Z; [reflexivity|].
  specialize (IH (k + 1)%Z (eval_step st b)).
  destruct (val_loop c (k + 1) ds (eval_step st b)) as [[s r] n].
  exact IH.
Qed.

(** The metrics after the validation loop: one update per batch consumed,
    each the loss of the entry state's model on that batch. *)
Lemma val_loop_metrics (c : Config) (val_ds : list Batch) :
  forall (val_step : Z) (val_state : State),
    metrics (fst (fst (val_loop c val_step val_ds val_state)))
    = fold_left
        (fun m b =>
           Metrics.merge m (Metrics.gather_from_model_output
                              (eval_loss val_state b)))
        (firstn (snd (val_loop c val_step val_ds val_state)) val_ds)
        (metrics val_state).
Proof.
  induction val_ds as [|b ds IH]; intros k st; [reflexivity|].
  simpl val_loop.
  destruct (k =? val_samples c / global_batch_size c)%Z; [reflexivity|].
  specialize (IH (k + 1)%Z (eval_step st b)).
  destruct (val_loop c (k + 1) ds (eval_step st b)) as [[s r] n].
  exact IH.
Qed.

Lemma skipn_min {A : Type} (n : nat) (l : list A) :
  skipn (Nat.min (length l) n) l = skipn n l.
Proof.
  destruct (Nat.le_ge_cases n (length l)) as [H|H].
  - now rewrite Nat.min_r.
  - rewrite Nat.min_l by assumption.
    now rewrite skipn_all, skipn_all2.
Qed.

Lemma firstn_min {A : Type} (n : nat) (l : list A) :
  firstn (Nat.min (length l) n) l = firstn n l.
Proof.
  destruct (Nat.le_ge_cases n (length l)) as [H|H].
  - now rewrite Nat.min_r.
  - rewrite Nat.min_l by assumption.
    now rewrite firstn_all, firstn_all2.
Qed.

(** The totals of a run of updates. *)
Lemma fold_updates (losses : list Q) (m : Metrics.Metrics) :
  fold_left
    (fun m l => Metrics.merge m (Metrics.gather_from_model_output l))
    losses m
  = {| Metrics.loss :=
         {| Metrics.total :=
              fold_left Qplus losses (Metrics.total (Metrics.loss m));
            Metrics.count :=
              (Metrics.count (Metrics.loss m) + Z.of_nat (length losses))%Z |} |}.
Proof.
  revert m. induction losses as [|x xs IH]; intros m.
  - simpl. rewrite Z.add_0_r. now destruct m as [[t n]].
  - simpl fold_left. rewrite IH. simpl. do 2 f_equal. lia.
Qed.

Lemma fold_left_map_losses (f : Batch -> Q) (bs : list Batch)
    (m : Metrics.Metrics) :
  fold_left
    (fun m b => Metrics.merge m (Metrics.gather_from_model_output (f b))) bs m
  = fold_left
      (fun m l => Metrics.merge m (Metrics.gather_from_model_output l))
      (map f bs) m.
Proof.
  revert m. induction bs as [|b bs IH]; intros m; [reflexivity|].
  simpl. apply IH.
Qed.

(** [epoch_end] in terms of its validation loop. *)
Lemma epoch_end_eq (c : Config) (latest_epoch : Z) (l : LoopSt) :
  let state := replace_metrics (l_state l) Metrics.empty in
  let r := val_loop c 0 (l_val_ds l) state in
  let val_value := Metrics.compute (metrics (fst (fst r))) in
  let metrics_history :=
    {| train_loss :=
         train_loss (l_history l) ++ [Metrics.compute (metrics (l_state l))];
       val_loss := val_loss (l_history l) ++ [val_value] |} in
  fst (epoch_end c latest_epoch l)
  = {| l_state := state; l_history := metrics_history;
       l_epochs := (l_epochs l + 1)%Z; l_val_ds := snd (fst r);
       l_saves :=
         l_saves l
         ++ [{| save_step := (l_epochs l + latest_epoch)%Z;
                save_items := {| model := fst (fst r);
                                 ckpt_history := metrics_history |};
                save_val_loss := val_value |}] |}.
Proof.
  unfold epoch_end.
  now destruct (val_loop c 0 (l_val_ds l) _) as [[vs vd] n].
Qed.

(** X4: the validation generator is not restarted between epochs: an epoch
    takes the first [val_samples // global_batch_size + 1] batches of what
    the epochs before have left (all of it, when fewer are left). *)
Theorem epoch_end_consumes_validation (c : Config) (latest_epoch : Z)
    (l : LoopSt) :
  (0 <= val_samples c / global_batch_size c)%Z ->
  l_val_ds (fst (epoch_end c latest_epoch l))
  = skipn (Z.to_nat (val_samples c / global_batch_size c) + 1) (l_val_ds l).
Proof.
  intros Hlim. rewrite epoch_end_eq. cbn [l_val_ds].
  rewrite val_loop_rest, val_loop_count by lia.
  rewrite Z.sub_0_r. apply skipn_min.
Qed.

(** X5: the validation loss an epoch records and passes to [save] is the
    mean of the losses of the model on the batches the epoch consumed (the
    sum of the losses in order, over their number); it is undefined when
    the generator had nothing left. *)
Theorem epoch_end_validation_loss (c : Config) (latest_epoch : Z)
    (l : LoopSt) :
  (0 <= val_samples c / global_batch_size c)%Z ->
  let consumed :=
    firstn (Z.to_nat (val_samples c / global_batch_size c) + 1) (l_val_ds l) in
  let losses := map (eval_loss (l_state l)) consumed in
  exists call,
    l_saves (fst (epoch_end c latest_epoch l)) = l_saves l ++ [call] /\
    val_loss (l_history (fst (epoch_end c latest_epoch l)))
    = val_loss (l_history l) ++ [save_val_loss call] /\
    (consumed = [] -> save_val_loss call = None) /\
    (consumed <> [] ->
     save_val_loss call
     = Some (fold_left Qplus losses 0 / inject_Z (Z.of_nat (length losses)))).
Proof.
  intros Hlim consumed losses. rewrite epoch_end_eq. cbn [l_saves l_history val_loss].
  eexists. split; [reflexivity|]. cbn [save_val_loss]. split; [reflexivity|].
  rewrite val_loop_metrics, val_loop_count by lia.
  rewrite Z.sub_0_r, firstn_min. fold consumed.
  rewrite (fold_left_map_losses
             (eval_loss (replace_metrics (l_state l) Metrics.empty))).
  change (map (eval_loss (replace_metrics (l_state l) Metrics.empty)) consumed)
    with losses.
  rewrite fold_updates. unfold Metrics.compute, Metrics.Average_compute.
  cbn [Metrics.loss Metrics.count Metrics.total metrics replace_metrics
       Metrics.empty Metrics.Average_empty].
  rewrite Z.add_0_l. split.
  - intros E. unfold losses. rewrite E. reflexivity.
  - intros E.
    destruct (Z.eqb_spec (Z.of_nat (length losses)) 0) as [E0|_];
      [|reflexivity].
    exfalso. apply E. unfold losses in E0. rewrite length_map in E0.
    destruct consumed; [reflexivity|discriminate].
Qed.

(** X6: the checkpoint an epoch saves holds the state being trained, with
    the metrics of the validation in place of those of the training, and
    the history just extended; the metric passed is the last validation
    loss of that history; training goes on from the same state with empty
    metrics. *)
Theorem epoch_end_checkpoint (c : Config) (latest_epoch : Z) (l : LoopSt) :
  let l' := fst (epoch_end c latest_epoch l) in
  exists call,
    l_saves l' = l_saves l ++ [call] /\
    params (model (save_items call)) = params (l_state l) /\
    opt_state (model (save_items call)) = opt_state (l_state l) /\
    step (model (save_items call)) = step (l_state l) /\
    constants (model (save_items call)) = constants (l_state l) /\
    pt_constants (model (save_items call)) = pt_constants (l_state l) /\
    l_state l' = replace_metrics (l_state l) Metrics.empty /\
    ckpt_history (save_items call) = l_history l' /\
    train_loss (l_history l')
    = train_loss (l_history l) ++ [Metrics.compute (metrics (l_state l))] /\
    save_val_loss call = last (val_loss (l_history l')) None.
Proof.
  intros l'. unfold l'. rewrite epoch_end_eq.
  cbn [l_saves l_state l_history train_loss val_loss].
  eexists. split; [reflexivity|]. cbn [save_items model ckpt_history save_val_loss].
  pose proof (val_loop_model c (l_val_ds l) 0
                (replace_metrics (l_state l) Metrics.empty)) as Hm.
  unfold same_model in Hm.
  set (vs := fst (fst (val_loop c 0 (l_val_ds l) _))) in *.
  assert (Hp : params vs = params (l_state l))
    by (change (params vs) with (params (replace_metrics vs Metrics.empty));
        now rewrite Hm).
  assert (Ho : opt_state vs = opt_state (l_state l))
    by (change (opt_state vs) with (opt_state (replace_metrics vs Metrics.empty));
        now rewrite Hm).
  assert (Hs : step vs = step (l_state l))
    by (change (step vs) with (step (replace_metrics vs Metrics.empty));
        now rewrite Hm).
  assert (Hc : constants vs = constants (l_state l))
    by (change (constants vs) with (constants (replace_metrics vs Metrics.empty));
        now rewrite Hm).
  assert (Hq : pt_constants vs = pt_constants (l_state l))
    by (change (pt_constants vs)
          with (pt_constants (replace_metrics vs Metrics.empty));
        now rewrite Hm).
  repeat split; try assumption.
  now rewrite last_last.
Qed.

End Script.

(** The validation batches of one epoch of the small run: three of ten. *)
Lemma epoch_end_consumes_validation_witness :
  length (l_val_ds (fst (epoch_end ex_config 0
            {| l_state := ex_fresh; l_history := empty_history;
               l_epochs := 0; l_val_ds := repeat ex_batch 10;
               l_saves := [] |}))) = 7%nat.
Proof.
  rewrite (@epoch_end_consumes_validation Z Z unit unit unit ex_config 0%Z _).
  - reflexivity.
  - vm_compute. discriminate.
Defined.

(** The validation loss of one epoch of the small run, whose model gives
    the loss [0] on every batch. *)
Lemma epoch_end_validation_loss_witness :
  exists call,
    l_saves (fst (epoch_end ex_config 0
               {| l_state := ex_fresh; l_history := empty_history;
                  l_epochs := 0; l_val_ds := repeat ex_batch 10;
                  l_saves := [] |})) = [call] /\
    save_val_loss call = Some ((0 + 0 + 0 + 0) / 3).
Proof.
  destruct (@epoch_end_validation_loss Z Z unit unit unit ex_config 0%Z
              {| l_state := ex_fresh; l_history := empty_history;
                 l_epochs := 0; l_val_ds := repeat ex_batch 10;
                 l_saves := [] |})
    as [call [Es [_ [_ Hv]]]].
  - vm_compute. discriminate.
  - exists call. split; [exact Es|]. apply Hv. discriminate.
Defined.

End EpochFacts.

(** *** The metrics history over a run *)

Module HistoryFacts.
Import Tensor Train Checkpoint Program Example Run EpochFacts.

Section Script.
Variables Params OptState Constants Grads Key : Type.
Variable fold_in : Key -> Z -> Key.
Variable grad : (Params -> Q) -> Params -> Grads.
Variable pmean : Grads -> Grads.
Variable apply_updates : Params -> Grads -> Params.

Abbreviation LoopSt := (Loop Params OptState Constants Grads Key).
Abbreviation Call := (SaveCall Params OptState Constants Grads Key).




End Script.


End HistoryFacts.

(** *** Startup without a checkpoint of the run's own *)

Module StartupMore.
Import Train Checkpoint Program Example StoreFacts.

Section Store.
Variable M : Type.

Lemma latest_step_none (st : Store M) : latest_step st = None <-> st = [].
Proof.
  split; [|intros ->; reflexivity].
  destruct st as [|r st]; [reflexivity|]. simpl.
  destruct (latest_step st); discriminate.
Qed.

Lemma latest_step_max (st : Store M) (e : Z) :
  latest_step st = Some e ->
  forall r, In r st -> (epoch_index r <= e)%Z.
Proof.
  revert e. induction st as [|a st IH]; intros e; simpl; [discriminate|].
  destruct (latest_step st) as [e'|] eqn:E.
  - intros [= <-] r [<-|Hr]; [lia|].
    specialize (IH e' eq_refl r Hr). lia.
  - apply latest_step_none in E. subst st.
    intros [= <-] r [<-|[]]. lia.
Qed.

End Store.

Section Script.
Variables Params OptState Constants Grads Key : Type.

Abbreviation State := (TrainState Params OptState Constants Grads Key).
Abbreviation CkStore := (Store (Ckpt Params OptState Constants Grads Key)).

(** X8: a transfer restore alone (no checkpoint in the run's own store) takes
    the parameters of the checkpoint of highest epoch index in the given
    store and nothing else: step, optimizer state, metrics and constants are
    those of the fresh state, the metrics history is the fresh one, and
    epochs are numbered from 0. *)
Theorem startup_transfer_only (fresh : State) (metrics_history : History)
    (throwaway : CkStore) :
  throwaway <> [] ->
  exists restored st,
    In restored throwaway /\
    (forall r, In r throwaway -> (epoch_index r <= epoch_index restored)%Z) /\
    startup fresh metrics_history (Some throwaway) []
    = Some (st, metrics_history, 0%Z) /\
    params st = params (model (content restored)) /\
    step st = step fresh /\
    opt_state st = opt_state fresh /\
    metrics st = metrics fresh /\
    constants st = constants fresh /\
    pt_constants st = pt_constants fresh.
Proof.
  intros Hne.
  destruct (latest_step throwaway) as [e|] eqn:El;
    [|apply latest_step_none in El; contradiction].
  destruct (restore_latest throwaway El) as [r [Er [Hin He]]].
  exists r. eexists. split; [exact Hin|]. split.
  - intros r' Hr'. rewrite He. now apply (latest_step_max throwaway El).
  - unfold startup. rewrite El, Er. simpl. repeat split.
Qed.

(** X9: startup fails exactly when [--restore-params-ckpt] names a store
    without any checkpoint, whatever the run's own store holds; without the
    option and without a checkpoint of its own the run starts from the fresh
    state. *)
Theorem startup_fails_iff (fresh : State) (metrics_history : History)
    (transfer : option CkStore) (own : CkStore) :
  (startup fresh metrics_history transfer own = None <-> transfer = Some []) /\
  startup fresh metrics_history None [] = Some (fresh, metrics_history, 0%Z).
Proof.
  split; [|reflexivity]. split.
  - unfold startup. destruct transfer as [t|].
    + destruct (latest_step t) as [e|] eqn:Et.
      * destruct (restore_latest t Et) as [r [Er _]]. rewrite Er.
        destruct (latest_step own) as [e'|] eqn:Eo; [|discriminate].
        destruct (restore_latest own Eo) as [r' [Er' _]]. rewrite Er'.
        discriminate.
      * apply latest_step_none in Et. now subst t.
    + destruct (latest_step own) as [e'|] eqn:Eo; [|discriminate].
      destruct (restore_latest own Eo) as [r' [Er' _]]. rewrite Er'.
      discriminate.
  - intros ->. reflexivity.
Qed.

End Script.

(** The transfer restore of the small run: parameters 5 of the pretrained
    checkpoint, step 0. *)
Lemma startup_transfer_only_witness :
  exists st,
    startup ex_fresh empty_history (Some ex_transfer) []
    = Some (st, empty_history, 0%Z) /\
    step st = 0%Z /\ opt_state st = 0%Z.
Proof.
  destruct (@startup_transfer_only Z Z unit unit unit ex_fresh
              empty_history ex_transfer)
    as [r [st [_ [_ [Es [_ [Hs [Ho _]]]]]]]].
  - discriminate.
  - exists st. split; [exact Es|]. split; [exact Hs|exact Ho].
Defined.

End StartupMore.

(** *** More on the reconstruction loss *)

Module LossMore.
Import Tensor SimMIM LossSpec TensorFacts LossFacts.

(** Sums over index ranges. *)

Lemma bigsum_S (n : nat) (f : nat -> Q) :
  bigsum (S n) f = f 0%nat + bigsum n (fun i => f (S i)).
Proof.
  unfold bigsum. simpl. now rewrite <- seq_shift, map_map.
Qed.

Lemma bigsum_add (a b : nat) (f : nat -> Q) :
  bigsum (a + b) f == bigsum a f + bigsum b (fun i => f (a + i)%nat).
Proof.
  revert f. induction a as [|a IH]; intros f.
  - change (bigsum b f == 0 + bigsum b f). ring.
  - change (bigsum (S (a + b)) f
            == bigsum (S a) f + bigsum b (fun i => f (S (a + i)))).
    rewrite !bigsum_S, IH. ring.
Qed.

Lemma bigsum_const (n : nat) (a : Q) :
  bigsum n (fun _ => a) == inject_Z (Z.of_nat n) * a.
Proof.
  induction n as [|n IH].
  - unfold bigsum. simpl. ring.
  - rewrite bigsum_S, IH, Nat2Z.inj_succ. unfold Z.succ.
    rewrite inject_Z_plus. ring.
Qed.

Lemma bigsum_scal (n : nat) (a : Q) (f : nat -> Q) :
  bigsum n (fun i => a * f i) == a * bigsum n f.
Proof.
  revert f. induction n as [|n IH]; intros f.
  - unfold bigsum. simpl. ring.
  - rewrite !bigsum_S, IH. ring.
Qed.

Lemma bigsum_le (n : nat) (f g : nat -> Q) :
  (forall i, (i < n)%nat -> f i <= g i) -> bigsum n f <= bigsum n g.
Proof.
  revert f g. induction n as [|n IH]; intros f g H.
  - apply Qle_refl.
  - rewrite !bigsum_S. apply Qplus_le_compat.
    + apply H. lia.
    + apply IH. intros i Hi. apply H. lia.
Qed.

(** A sum over [n] blocks of [p] equal terms. *)
Lemma bigsum_blocks (p n : nat) (f : nat -> Q) :
  bigsum (n * p) (fun i => f (i / p)%nat)
  == inject_Z (Z.of_nat p) * bigsum n f.
Proof.
  destruct (Nat.eq_dec p 0) as [->|Hp].
  - rewrite Nat.mul_0_r. unfold bigsum at 1. simpl. ring.
  - revert f. induction n as [|n IH]; intros f.
    + unfold bigsum. simpl. ring.
    + simpl Nat.mul. rewrite bigsum_add, bigsum_S.
      rewrite (@bigsum_ext p (fun i => f (i / p)%nat) (fun _ => f 0%nat)).
      * rewrite bigsum_const.
        rewrite (@bigsum_ext (n * p) (fun i => f ((p + i) / p)%nat)
                   (fun i => f (S (i / p)))).
        -- rewrite (IH (fun i => f (S i))). ring.
        -- intros i _.
           replace (p + i)%nat with (i + 1 * p)%nat by lia.
           rewrite Nat.div_add by assumption.
           now rewrite Nat.add_1_r.
      * intros i Hi. now rewrite Nat.div_small.
Qed.

Lemma sum4_pixel_mask (p B gh gw : nat) (mask : T3) :
  shape3 B gh gw mask ->
  sum4 (pixel_mask p mask) == mask_px_sum p B (gh * p) (gw * p) mask.
Proof.
  intros Hmask.
  rewrite (sum4_bigsum (shape4_pixel_mask p Hmask)). unfold mask_px_sum.
  apply bigsum_ext; intros b Hb. apply bigsum_ext; intros i Hi.
  apply bigsum_ext; intros j Hj. rewrite bigsum_one.
  rewrite (@at4_pixel_mask p B gh gw mask b i j Hmask Hb Hi Hj). reflexivity.
Qed.

(** X10: the divisor of the loss counts [patch_size * patch_size] pixels
    for every unit of the coarse mask: [sum(mask_px) = patch_size^2 *
    sum(mask)]. *)
Theorem pixel_mask_sum (p B gh gw : nat) (mask : T3) :
  shape3 B gh gw mask ->
  sum4 (pixel_mask p mask) == inject_Z (Z.of_nat (p * p)) * sum3 mask.
Proof.
  intros Hmask.
  rewrite (sum4_pixel_mask p Hmask), (sum3_bigsum Hmask).
  unfold mask_px_sum, mask_px.
  rewrite Nat2Z.inj_mul, inject_Z_mult, <- Qmult_assoc.
  rewrite <- (bigsum_scal B), <- (bigsum_scal B).
  apply bigsum_ext; intros b _.
  rewrite (bigsum_blocks p gh
             (fun i => bigsum (gw * p) (fun j => at3 mask b i (j / p)%nat))).
  apply Qmult_comp; [reflexivity|].
  rewrite <- (bigsum_scal gh).
  apply bigsum_ext; intros i _.
  apply (bigsum_blocks p gw (fun j => at3 mask b i j)).
Qed.

(** The claim on a 2x1 mask with patches of 3 pixels. *)
Lemma pixel_mask_sum_witness :
  sum4 (pixel_mask 3 [[[1]; [0]]]) == inject_Z 9 * sum3 [[[1]; [0]]].
Proof.
  apply (@pixel_mask_sum 3 1 2 1).
  split; [reflexivity|]. repeat constructor.
Defined.

Section Loss.
Variable encoder : T4 -> T3 -> bool -> option T4.
Variable p : nat.
Variable in_chans : Z.
Variables B gh gw C : nat.
Variables (x : T4) (mask : T3) (train : bool) (z : T4).
Hypothesis Hx : shape4 B (gh * p) (gw * p) C x.
Hypothesis Hmask : shape3 B gh gw mask.
Hypothesis Henc : encoder x mask train = Some z.

(** The entries of an image, a reconstruction or the pixel mask. *)
Let in_range (b i j c : nat) : Prop :=
  (b < B)%nat /\ (i < gh * p)%nat /\ (j < gw * p)%nat /\ (c < C)%nat.

Lemma masked_l1_agree (rec1 rec2 : T4) :
  (forall b i j c, in_range b i j c ->
     mask_px p mask b i j == 0 \/ at4 rec1 b i j c == at4 rec2 b i j c) ->
  masked_l1 p B (gh * p) (gw * p) C x rec1 mask
  == masked_l1 p B (gh * p) (gw * p) C x rec2 mask.
Proof.
  intros H. unfold masked_l1.
  apply bigsum_ext; intros b Hb. apply bigsum_ext; intros i Hi.
  apply bigsum_ext; intros j Hj. apply bigsum_ext; intros c Hc.
  destruct (H b i j c) as [E|E]; [repeat split; assumption| |].
  - rewrite E. ring.
  - rewrite E. reflexivity.
Qed.

Lemma masked_l1_self :
  masked_l1 p B (gh * p) (gw * p) C x x mask == 0.
Proof.
  unfold masked_l1.
  apply bigsum_zero; intros b _. apply bigsum_zero; intros i _.
  apply bigsum_zero; intros j _. apply bigsum_zero; intros c _.
  setoid_replace (at4 x b i j c - at4 x b i j c) with 0 by ring.
  simpl Qabs. ring.
Qed.

Lemma masked_l1_bound (rec : T4) (d : Q) :
  mask_all (fun m => 0 <= m) mask ->
  (forall b i j c, in_range b i j c ->
     Qabs (at4 x b i j c - at4 rec b i j c) <= d) ->
  masked_l1 p B (gh * p) (gw * p) C x rec mask
  <= inject_Z (Z.of_nat C) * d * mask_px_sum p B (gh * p) (gw * p) mask.
Proof.
  intros Hnn Hd. unfold masked_l1, mask_px_sum.
  rewrite <- (bigsum_scal B).
  apply bigsum_le; intros b Hb. rewrite <- (bigsum_scal (gh * p)).
  apply bigsum_le; intros i Hi. rewrite <- (bigsum_scal (gw * p)).
  apply bigsum_le; intros j Hj.
  assert (Hm : 0 <= mask_px p mask b i j)
    by (apply (@at3_mask_all (fun m => 0 <= m)); [apply Qle_refl|exact Hnn]).
  eapply Qle_trans.
  - apply (@bigsum_le C _ (fun _ => d * mask_px p mask b i j)).
    intros c Hc. apply Qmult_le_compat_r; [|exact Hm].
    apply Hd. repeat split; assumption.
  - rewrite bigsum_const. apply Qle_lteq. right. ring.
Qed.

(** X11: the loss looks at masked pixels only: two reconstructions that
    agree wherever the pixel mask is not zero give the same loss. *)
Theorem loss_ignores_unmasked_pixels (decoder1 decoder2 : T4 -> T4) :
  shape4 B (gh * p) (gw * p) C (decoder1 z) ->
  shape4 B (gh * p) (gw * p) C (decoder2 z) ->
  (forall b i j c,
     (b < B)%nat -> (i < gh * p)%nat -> (j < gw * p)%nat -> (c < C)%nat ->
     mask_px p mask b i j == 0 \/
     at4 (decoder1 z) b i j c == at4 (decoder2 z) b i j c) ->
  exists loss1 loss2,
    SimMIM_call encoder decoder1 p in_chans x mask train
    = Some (loss1, decoder1 z) /\
    SimMIM_call encoder decoder2 p in_chans x mask train
    = Some (loss2, decoder2 z) /\
    loss1 == loss2.
Proof.
  intros H1 H2 Hagree.
  destruct (@SimMIM_call_value encoder decoder1 p in_chans B gh gw C x mask
              train z Hx Hmask Henc H1) as [lm1 [E1 [N1 _]]].
  destruct (@SimMIM_call_value encoder decoder2 p in_chans B gh gw C x mask
              train z Hx Hmask Henc H2) as [lm2 [E2 [N2 _]]].
  eexists. eexists. split; [exact E1|]. split; [exact E2|].
  rewrite N1, N2, (masked_l1_agree (decoder1 z) (decoder2 z)); [reflexivity|].
  intros b i j c [Hb [Hi [Hj Hc]]]. now apply Hagree.
Qed.

(** X12: a reconstruction that equals the image wherever the pixel mask is
    not zero has loss zero. *)
Theorem loss_zero_on_masked_match (decoder : T4 -> T4) :
  shape4 B (gh * p) (gw * p) C (decoder z) ->
  (forall b i j c,
     (b < B)%nat -> (i < gh * p)%nat -> (j < gw * p)%nat -> (c < C)%nat ->
     mask_px p mask b i j == 0 \/
     at4 (decoder z) b i j c == at4 x b i j c) ->
  exists loss,
    SimMIM_call encoder decoder p in_chans x mask train
    = Some (loss, decoder z) /\
    loss == 0.
Proof.
  intros Hrec Hagree.
  destruct (@SimMIM_call_value encoder decoder p in_chans B gh gw C x mask
              train z Hx Hmask Henc Hrec) as [lm [E [N _]]].
  eexists. split; [exact E|].
  rewrite N, (masked_l1_agree (decoder z) x), masked_l1_self.
  - unfold Qdiv. ring.
  - intros b i j c [Hb [Hi [Hj Hc]]]. now apply Hagree.
Qed.

(** X13: with a mask of non-negative entries and a positive channel count,
    a reconstruction within [d] of the image in every entry has a loss of at
    most [d] times the number of channels of the image over [in_chans]. *)
Theorem loss_bounded_by_error (decoder : T4 -> T4) (d : Q) :
  shape4 B (gh * p) (gw * p) C (decoder z) ->
  mask_all (fun m => 0 <= m) mask ->
  (0 < in_chans)%Z ->
  0 <= d ->
  (forall b i j c,
     (b < B)%nat -> (i < gh * p)%nat -> (j < gw * p)%nat -> (c < C)%nat ->
     Qabs (at4 x b i j c - at4 (decoder z) b i j c) <= d) ->
  exists loss,
    SimMIM_call encoder decoder p in_chans x mask train
    = Some (loss, decoder z) /\
    loss <= d * inject_Z (Z.of_nat C) / inject_Z in_chans.
Proof.
  intros Hrec Hnn Hk Hd0 Hd.
  destruct (@SimMIM_call_value encoder decoder p in_chans B gh gw C x mask
              train z Hx Hmask Henc Hrec) as [lm [E [N D]]].
  eexists. split; [exact E|]. rewrite N, D.
  pose proof (@mask_px_sum_nonneg p B (gh * p) (gw * p) mask Hnn) as Hs.
  pose proof eps_pos as He.
  assert (Hb : masked_l1 p B (gh * p) (gw * p) C x (decoder z) mask
               <= inject_Z (Z.of_nat C) * d
                  * mask_px_sum p B (gh * p) (gw * p) mask).
  { apply masked_l1_bound; [exact Hnn|].
    intros b i j c [Hb [Hi [Hj Hc]]]. now apply Hd. }
  assert (HC : 0 <= inject_Z (Z.of_nat C)).
  { change 0 with (inject_Z 0). rewrite <- Zle_Qle. lia. }
  assert (Hk' : 0 < inject_Z in_chans).
  { change 0 with (inject_Z 0). rewrite <- Zlt_Qlt. exact Hk. }
  assert (Hcd : 0 <= inject_Z (Z.of_nat C) * d)
    by (now apply Qmult_le_0_compat).
  apply Qle_shift_div_r; [exact Hk'|].
  apply Qle_shift_div_r; [lra|].
  set (S := mask_px_sum p B (gh * p) (gw * p) mask) in *.
  set (K := inject_Z (Z.of_nat C) * d) in *.
  assert (HKS : K * S <= K * (S + eps)).
  { rewrite Qmult_plus_distr_r.
    assert (0 <= K * eps) by (apply Qmult_le_0_compat; lra). lra. }
  eapply Qle_trans; [exact Hb|].
  eapply Qle_trans; [exact HKS|].
  apply Qle_lteq. right. unfold K. field.
  intros E0. rewrite E0 in Hk'. lra.
Qed.

End Loss.

(** The claims at a 2x2 image of three channels with its one patch
    masked. *)
Lemma loss_zero_on_masked_match_witness :
  let img := [[[[1; 2; 3]; [1; 2; 3]]; [[1; 2; 3]; [1; 2; 3]]]] in
  exists loss,
    SimMIM_call (fun _ _ _ => Some img) (fun z => z) 2 3 img [[[1]]] false
    = Some (loss, img) /\ loss == 0.
Proof.
  intros img.
  apply (@loss_zero_on_masked_match (fun _ _ _ => Some img) 2 3 1 1 1 3 img
           [[[1]]] false img).
  - split; [reflexivity|]. repeat constructor.
  - split; [reflexivity|]. repeat constructor.
  - reflexivity.
  - split; [reflexivity|]. repeat constructor.
  - intros. right. reflexivity.
Defined.

Lemma loss_ignores_unmasked_pixels_witness :
  let img := [[[[1; 2; 3]; [1; 2; 3]]; [[1; 2; 3]; [1; 2; 3]]]] in
  let rec := [[[[0; 0; 0]; [1; 1; 1]]; [[0; 0; 0]; [1; 1; 1]]]] in
  exists loss1 loss2,
    SimMIM_call (fun _ _ _ => Some rec) (fun z => z) 2 3 img [[[0]]] false
    = Some (loss1, rec) /\
    SimMIM_call (fun _ _ _ => Some rec) (fun _ => img) 2 3 img [[[0]]] false
    = Some (loss2, img) /\
    loss1 == loss2.
Proof.
  intros img rec.
  apply (@loss_ignores_unmasked_pixels (fun _ _ _ => Some rec) 2 3 1 1 1 3
           img [[[0]]] false rec).
  - split; [reflexivity|]. repeat constructor.
  - split; [reflexivity|]. repeat constructor.
  - reflexivity.
  - split; [reflexivity|]. repeat constructor.
  - split; [reflexivity|]. repeat constructor.
  - intros b i j c Hb Hi Hj Hc. left.
    assert (b = 0%nat) by lia. subst b.
    assert (i / 2 = 0)%nat by (apply Nat.div_small_iff; lia).
    assert (j / 2 = 0)%nat by (apply Nat.div_small_iff; lia).
    unfold mask_px. rewrite H, H0. reflexivity.
Defined.

Lemma loss_bounded_by_error_witness :
  let img := [[[[1; 2; 3]; [1; 2; 3]]; [[1; 2; 3]; [1; 2; 3]]]] in
  exists loss,
    SimMIM_call (fun _ _ _ => Some img) (fun z => z) 2 3 img [[[1]]] false
    = Some (loss, img) /\ loss <= 5 * inject_Z 3 / inject_Z 3.
Proof.
  intros img.
  apply (@loss_bounded_by_error (fun _ _ _ => Some img) 2 3 1 1 1 3 img
           [[[1]]] false img).
  - split; [reflexivity|]. repeat constructor.
  - split; [reflexivity|]. repeat constructor.
  - reflexivity.
  - split; [reflexivity|]. repeat constructor.
  - repeat constructor. discriminate.
  - reflexivity.
  - discriminate.
  - intros b i j c _ _ _ _.
    setoid_replace (at4 img b i j c - at4 img b i j c) with 0 by ring.
    discriminate.
Defined.

End LossMore.

(** *** The encoder call: shape errors and the token grid *)

Module EncoderFacts.
Import Tensor SimMIM TensorFacts BlendFacts.

(** Rows of a buffer of the right length. *)
Lemma Forall_rows {A : Type} (P : list A -> Prop) (n w : nat) (l : list A) :
  (forall r, length r = w -> (forall a, In a r -> In a l) -> P r) ->
  length l = (n * w)%nat ->
  Forall P (rows n w l).
Proof.
  revert l. induction n as [|n IH]; intros l HP Hl; simpl; constructor.
  - apply HP.
    + rewrite length_firstn. simpl in Hl. lia.
    + intros a Ha. rewrite <- (firstn_skipn w l). apply in_or_app. now left.
  - apply IH.
    + intros r Hr Hin. apply HP; [exact Hr|].
      intros a Ha. rewrite <- (firstn_skipn w l). apply in_or_app. right.
      now apply Hin.
    + rewrite length_skipn. simpl in Hl. lia.
Qed.

Lemma shape4_reshape (B H W C : nat) (flat : list Q) :
  length flat = (B * H * W * C)%nat ->
  shape4 B H W C (rows B H (rows (B * H) W (rows (B * H * W) C flat))).
Proof.
  intros Hl. split; [apply length_rows|].
  apply Forall_rows; [|now rewrite length_rows].
  intros img Li Hi. split; [exact Li|].
  apply Forall_forall. intros row Hrow. apply Hi in Hrow.
  assert (F2 : Forall (shape2 W C) (rows (B * H) W (rows (B * H * W) C flat))).
  { apply Forall_rows; [|now rewrite length_rows].
    intros r Lr Hr. split; [exact Lr|].
    apply Forall_forall. intros v Hv. apply Hr in Hv.
    assert (F1 : Forall (shape1 C) (rows (B * H * W) C flat)).
    { apply Forall_rows; [|exact Hl]. intros t Lt _. exact Lt. }
    rewrite Forall_forall in F1. now apply F1. }
  rewrite Forall_forall in F2. now apply F2.
Qed.

Lemma length_flatten3_shape (B L C : nat) (x : T3) :
  shape3 B L C x -> length (flatten3 x) = (B * L * C)%nat.
Proof.
  intros Hx. rewrite (length_flatten3 Hx). lia.
Qed.

Section Encoder.
Variable patch_embed : T4 -> T3.
Variable swin_body_norm : T3 -> bool -> T3.
Variable mask_token : T1.

Lemma blend_defined (B L : nat) (x mask : T3) :
  shape3 B L (length mask_token) x ->
  length (flatten3 mask) = (dim0 x * dim1 x)%nat ->
  exists y, blend mask_token x mask = Some y.
Proof.
  intros Hx Hl.
  assert (Hx' : shape3 (dim0 x) (dim1 x) (length mask_token) x).
  { destruct Hx as [Lx Fx]. destruct x as [|r x'].
    - split; [reflexivity|constructor].
    - split; [reflexivity|].
      inversion Fx as [|? ? [Lr _] _]. simpl dim1. rewrite Lr.
      exact Fx. }
  destruct (@blend_entries mask_token (dim0 x) (dim1 x) x mask Hx'
              eq_refl Hl) as [y [Ey _]].
  now exists y.
Qed.

(** X14: on tokens of shape [(B, L, embed_dim)] the blend succeeds exactly
    when the mask has [B * L] entries, whatever its shape: the reshape to
    [(B, L, 1)] is the only check. *)
Theorem blend_succeeds_iff (B L : nat) (x mask : T3) :
  shape3 B L (length mask_token) x ->
  (blend mask_token x mask <> None
   <-> length (flatten3 mask) = (dim0 x * dim1 x)%nat) /\
  (0 < B -> dim0 x * dim1 x = B * L)%nat.
Proof.
  intros Hx. split.
  - split.
    + unfold blend, reshape_BL1. rewrite Nat.mul_1_r.
      destruct (Nat.eqb_spec (length (flatten3 mask)) (dim0 x * dim1 x));
        [auto|]. intros H. now contradiction H.
    + intros Hl. destruct (blend_defined mask Hx Hl) as [y Ey].
      rewrite Ey. discriminate.
  - intros HB. rewrite (dim0_shape3 Hx), (dim1_shape3 Hx HB). reflexivity.
Qed.

(** X15: when the Swin body returns tokens of shape [(B, L, C)] with [B],
    [L] and [C] positive, the encoder call returns a grid of shape
    [(B, s, s, C)] with [s] the integer square root of [L] if [L] is a
    perfect square, and fails in the final reshape if it is not. *)
Theorem encoder_call_grid (B L C B' L' : nat) (x : T4) (mask : T3)
    (train : bool) :
  shape3 B' L' (length mask_token) (patch_embed x) ->
  length (flatten3 mask) = (dim0 (patch_embed x) * dim1 (patch_embed x))%nat ->
  (forall y, shape3 B L C (swin_body_norm y train)) ->
  (0 < B)%nat -> (0 < L)%nat -> (0 < C)%nat ->
  let s := Nat.sqrt L in
  (s * s = L ->
   exists t,
     SwinTransformerForSimMIM_call patch_embed swin_body_norm mask_token
       x mask train = Some t /\
     shape4 B s s C t)%nat /\
  (s * s <> L ->
   SwinTransformerForSimMIM_call patch_embed swin_body_norm mask_token
     x mask train = None)%nat.
Proof.
  intros Hpe Hm Hbody HB HL HC s.
  unfold SwinTransformerForSimMIM_call.
  destruct (blend mask_token (patch_embed x) mask) as [y|] eqn:Ey.
  2:{ destruct (blend_defined mask Hpe Hm) as [y Ey']. congruence. }
  specialize (Hbody y).
  assert (D0 : dim0 (swin_body_norm y train) = B) by exact (proj1 Hbody).
  assert (D1 : dim1 (swin_body_norm y train) = L)
    by exact (dim1_shape3 Hbody HB).
  assert (D2 : dim2 (swin_body_norm y train) = C).
  { destruct Hbody as [Lb Fb].
    destruct (swin_body_norm y train) as [|r rest]; [simpl in Lb; lia|].
    inversion Fb as [|? ? Hr _]. simpl dim2.
    destruct Hr as [Lr Fr].
    destruct r as [|v r']; [simpl in Lr; lia|].
    inversion Fr as [|? ? Hv _]. exact Hv. }
  rewrite D0, D1, D2. fold s. unfold reshape_BHWC.
  rewrite (length_flatten3_shape Hbody).
  split.
  - intros Hs.
    replace (B * s * s * C)%nat with (B * L * C)%nat by nia.
    rewrite Nat.eqb_refl. eexists. split; [reflexivity|].
    apply shape4_reshape. rewrite (length_flatten3_shape Hbody). nia.
  - intros Hs.
    destruct (Nat.eqb_spec (B * L * C) (B * s * s * C)) as [E|_];
      [|reflexivity].
    exfalso. apply Hs. nia.
Qed.

End Encoder.

(** The blend of four tokens with a mask given as one row of four. *)
Lemma blend_succeeds_iff_witness :
  blend [9; 9] [[[1; 2]; [3; 4]; [5; 6]; [7; 8]]] [[[0; 1; 1; 0]]] <> None.
Proof.
  apply (proj1 (@blend_succeeds_iff [9; 9] 1 4
                  [[[1; 2]; [3; 4]; [5; 6]; [7; 8]]] [[[0; 1; 1; 0]]]
                  ltac:(split; [reflexivity|repeat constructor]))).
  reflexivity.
Defined.

(** Four tokens make a 2x2 grid. *)
Lemma encoder_call_grid_witness :
  let toks := [[[1; 2]; [3; 4]; [5; 6]; [7; 8]]] in
  exists t,
    SwinTransformerForSimMIM_call (fun _ => toks) (fun y _ => toks) [9; 9]
      [] [[[0; 1]; [1; 0]]] false = Some t /\
    shape4 1 2 2 2 t.
Proof.
  intros toks.
  apply (@encoder_call_grid (fun _ => toks) (fun y _ => toks) [9; 9]
           1 4 2 1 4 [] [[[0; 1]; [1; 0]]] false).
  - split; [reflexivity|]. repeat constructor.
  - reflexivity.
  - intros y. split; [reflexivity|]. repeat constructor.
  - lia.
  - lia.
  - lia.
  - reflexivity.
Defined.

End EncoderFacts.

(** *** The decoder: pixel blocks out of channels *)

Module DecoderFacts.
Import Tensor SimMIM LossSpec Decoder TensorFacts LossFacts.

Lemma nth_seq0 (n i : nat) : (i < n)%nat -> nth i (seq 0 n) 0%nat = i.
Proof. intros H. now rewrite seq_nth. Qed.

Lemma nth_split_channels (b1 b2 c : nat) (v : T1) (ch d1 d2 : nat) :
  (ch < c)%nat -> (d1 < b1)%nat -> (d2 < b2)%nat ->
  nth d2 (nth d1 (nth ch (split_channels b1 b2 c v) []) []) 0
  = nth (ch * (b1 * b2) + d1 * b2 + d2) v 0.
Proof.
  intros Hc H1 H2. unfold split_channels.
  rewrite nth_rows by assumption.
  rewrite nth_firstn_skipn by assumption.
  rewrite nth_rows by nia.
  rewrite nth_firstn_skipn by assumption.
  f_equal. ring.
Qed.

Lemma nth_pixel (b1 b2 c : nat) (v : T1) (ch d1 d2 : nat) :
  (ch < c)%nat -> (d1 < b1)%nat -> (d2 < b2)%nat ->
  nth ch (pixel (split_channels b1 b2 c v) d1 d2) 0
  = nth (ch * (b1 * b2) + d1 * b2 + d2) v 0.
Proof.
  intros Hc H1 H2. unfold pixel.
  rewrite (@nth_map_in _ _ _ (split_channels b1 b2 c v) _ [] _)
    by (unfold split_channels; now rewrite length_rows).
  now apply nth_split_channels.
Qed.

Lemma length_pixel (b1 b2 c : nat) (v : T1) (d1 d2 : nat) :
  length (pixel (split_channels b1 b2 c v) d1 d2) = c.
Proof. unfold pixel, split_channels. now rewrite length_map, length_rows. Qed.

Section Rearrange.
Variables b1 b2 c : nat.

(** One output row of a row of vectors. *)
Let out_row (row : T2) (d1 : nat) : T2 :=
  flat_map (fun v => map (pixel (split_channels b1 b2 c v) d1) (seq 0 b2)) row.

Lemma out_row_pieces (row : T2) (d1 : nat) :
  Forall (fun r : T2 => length r = b2)
    (map (fun v => map (pixel (split_channels b1 b2 c v) d1) (seq 0 b2)) row).
Proof.
  rewrite Forall_map. apply Forall_forall. intros v _.
  now rewrite length_map, length_seq.
Qed.

Lemma shape2_out_row (w : nat) (row : T2) (d1 : nat) :
  length row = w -> shape2 (w * b2) c (out_row row d1).
Proof.
  intros Hw. unfold out_row. rewrite flat_map_concat_map. split.
  - rewrite (length_concat_uniform (out_row_pieces row d1)), length_map.
    now rewrite Hw.
  - apply Forall_concat. rewrite Forall_map. apply Forall_forall.
    intros v _. rewrite Forall_map. apply Forall_forall. intros d2 _.
    apply length_pixel.
Qed.

Lemma nth_out_row (w : nat) (row : T2) (d1 j d2 : nat) :
  length row = w -> (j < w)%nat -> (d2 < b2)%nat ->
  nth (j * b2 + d2) (out_row row d1) []
  = pixel (split_channels b1 b2 c (nth j row [])) d1 d2.
Proof.
  intros Hw Hj H2. unfold out_row. rewrite flat_map_concat_map.
  rewrite (nth_concat_uniform _ _ (out_row_pieces row d1) H2).
  rewrite (@nth_map_in _ _ _ row _ [] _) by (rewrite Hw; exact Hj).
  rewrite (@nth_map_in _ _ _ (seq 0 b2) _ 0%nat _)
    by (rewrite length_seq; exact H2).
  now rewrite nth_seq0.
Qed.

Lemma rearrange_row_pieces (img : T3) :
  Forall (fun r : T3 => length r = b1) (map (rearrange_row b1 b2 c) img).
Proof.
  rewrite Forall_map. apply Forall_forall. intros row _.
  unfold rearrange_row. now rewrite length_map, length_seq.
Qed.

Lemma nth_rearrange_row (row : T2) (d1 : nat) :
  (d1 < b1)%nat -> nth d1 (rearrange_row b1 b2 c row) [] = out_row row d1.
Proof.
  intros H1. unfold rearrange_row.
  rewrite (@nth_map_in _ _ _ (seq 0 b1) _ 0%nat _)
    by (rewrite length_seq; exact H1).
  now rewrite nth_seq0.
Qed.

Lemma shape3_rearrange_image (h w : nat) (img : T3) :
  shape3 h w (c * b1 * b2) img ->
  shape3 (h * b1) (w * b2) c (flat_map (rearrange_row b1 b2 c) img).
Proof.
  intros [Lh Fh]. rewrite flat_map_concat_map. split.
  - rewrite (length_concat_uniform (rearrange_row_pieces img)), length_map.
    now rewrite Lh.
  - apply Forall_concat. rewrite Forall_map.
    eapply Forall_impl; [|exact Fh]. intros row [Lw _].
    unfold rearrange_row. rewrite Forall_map. apply Forall_forall.
    intros d1 _. now apply shape2_out_row.
Qed.

Lemma rearrange_shape_entries (B h w : nat) (t : T4) :
  shape4 B h w (c * b1 * b2) t ->
  shape4 B (h * b1) (w * b2) c (rearrange b1 b2 c t) /\
  forall b i j d1 d2 ch,
    (b < B)%nat -> (i < h)%nat -> (j < w)%nat ->
    (d1 < b1)%nat -> (d2 < b2)%nat -> (ch < c)%nat ->
    at4 (rearrange b1 b2 c t) b (i * b1 + d1) (j * b2 + d2) ch
    = at4 t b i j (ch * (b1 * b2) + d1 * b2 + d2).
Proof.
  intros Ht. split.
  - destruct Ht as [LB FB]. unfold rearrange. split; [now rewrite length_map|].
    rewrite Forall_map. eapply Forall_impl; [|exact FB].
    intros img Himg. now apply shape3_rearrange_image.
  - intros b i j d1 d2 ch Hb Hi Hj H1 H2 Hc.
    pose proof (shape4_nth Ht Hb) as H3.
    pose proof (shape3_nth H3 Hi) as [Lw _].
    destruct Ht as [LB _]. destruct H3 as [Lh _].
    unfold at4, at3, at2, at1, rearrange.
    rewrite (@nth_map_in _ _ _ t _ [] _) by (rewrite LB; exact Hb).
    rewrite flat_map_concat_map.
    rewrite (nth_concat_uniform _ _ (rearrange_row_pieces (nth b t [])) H1).
    rewrite (@nth_map_in _ _ _ (nth b t []) _ [] _) by (rewrite Lh; exact Hi).
    rewrite nth_rearrange_row by exact H1.
    rewrite (nth_out_row _ d1 Lw Hj H2).
    now apply nth_pixel.
Qed.

End Rearrange.

(** X16: the decoder's rearrangement turns a [(B, h, w, 3 * s * s)] array
    into a [(B, h * s, w * s, 3)] array whose pixel [(i * s + d1, j * s + d2)]
    has for channel [ch] the channel [ch * s * s + d1 * s + d2] of the
    vector at [(i, j)]: every vector fills one [s] by [s] block of pixels. *)
Theorem decoder_pixel_blocks (conv : T4 -> T4) (s B h w : nat) (z : T4) :
  shape4 B h w (3 * s * s) (conv z) ->
  shape4 B (h * s) (w * s) 3 (decoder conv s z) /\
  forall b i j d1 d2 ch,
    (b < B)%nat -> (i < h)%nat -> (j < w)%nat ->
    (d1 < s)%nat -> (d2 < s)%nat -> (ch < 3)%nat ->
    at4 (decoder conv s z) b (i * s + d1) (j * s + d2) ch
    = at4 (conv z) b i j (ch * (s * s) + d1 * s + d2).
Proof. intros H. now apply rearrange_shape_entries. Qed.

(** X17: the head with its own decoder: on an image of three channels
    whose height and width are both the encoder's grid times the stride
    and the mask's grid times the patch size, the call returns the loss of
    the formula together with the rearranged reconstruction. *)
Theorem head_call_with_decoder
    (encoder : T4 -> T3 -> bool -> option T4) (conv : T4 -> T4)
    (s p : nat) (in_chans : Z) (B h w gh gw : nat)
    (x : T4) (mask : T3) (train : bool) (z : T4) :
  (h * s = gh * p)%nat -> (w * s = gw * p)%nat ->
  shape4 B (gh * p) (gw * p) 3 x ->
  shape3 B gh gw mask ->
  encoder x mask train = Some z ->
  shape4 B h w (3 * s * s) (conv z) ->
  exists loss,
    SimMIM_call encoder (decoder conv s) p in_chans x mask train
    = Some (loss, decoder conv s z) /\
    loss == loss_spec p in_chans B (gh * p) (gw * p) 3 x (decoder conv s z)
              mask.
Proof.
  intros Hh Hw Hx Hmask Henc Hconv.
  destruct (@rearrange_shape_entries s s 3 B h w (conv z) Hconv) as [Hrec _].
  fold (decoder conv s z) in Hrec. rewrite Hh, Hw in Hrec.
  destruct (@SimMIM_call_value encoder (decoder conv s) p in_chans B gh gw 3
              x mask train z Hx Hmask Henc Hrec) as [lm [E [N D]]].
  eexists. split; [exact E|]. unfold loss_spec. now rewrite N, D.
Qed.

(** The head on a 2x2 image: one encoder vector, stride 2, one masked patch
    of size 2. *)
Lemma head_call_with_decoder_witness :
  let img := [[[[1; 2; 3]; [1; 2; 3]]; [[1; 2; 3]; [1; 2; 3]]]] in
  let z := [[[[1; 2; 3; 4; 5; 6; 7; 8; 9; 10; 11; 12]]]] in
  exists loss,
    SimMIM_call (fun _ _ _ => Some z) (decoder (fun z => z) 2) 2 3 img
      [[[1]]] false
    = Some (loss, [[[[1; 5; 9]; [2; 6; 10]]; [[3; 7; 11]; [4; 8; 12]]]]).
Proof.
  intros img z.
  destruct (@head_call_with_decoder (fun _ _ _ => Some z) (fun z => z)
              2 2 3 1 1 1 1 1 img [[[1]]] false z) as [loss [E _]];
    try reflexivity.
  - split; [reflexivity|]. repeat constructor.
  - split; [reflexivity|]. repeat constructor.
  - split; [reflexivity|]. repeat constructor.
  - exists loss. exact E.
Defined.

(** One vector of twelve entries makes a 2x2 block of three channels. *)
Lemma decoder_pixel_blocks_witness :
  decoder (fun z => z) 2 [[[[1; 2; 3; 4; 5; 6; 7; 8; 9; 10; 11; 12]]]]
  = [[[[1; 5; 9]; [2; 6; 10]]; [[3; 7; 11]; [4; 8; 12]]]] /\
  shape4 1 2 2 3
    (decoder (fun z => z) 2 [[[[1; 2; 3; 4; 5; 6; 7; 8; 9; 10; 11; 12]]]]).
Proof.
  split; [reflexivity|].
  apply (@decoder_pixel_blocks (fun z => z) 2 1 1 1).
  split; [reflexivity|]. repeat constructor.
Defined.

End DecoderFacts.

(** *** The weight-decay mask of a parameter tree *)

Module ParamTreeFacts.
Import Decay ParamTree DecayFacts.

Lemma PyTree_induction (A : Type) (P : PyTree A -> Prop) :
  (forall a, P (Leaf a)) ->
  (forall items, Forall (fun kv => P (snd kv)) items -> P (Dict items)) ->
  forall t, P t.
Proof.
  intros HL HD. fix IH 1. intros [a|items]; [apply HL|]. apply HD.
  revert items. fix IHl 1. intros [|[k v] rest]; constructor.
  - apply IH.
  - apply IHl.
Qed.

Lemma sequence_some {X Y : Type} (g : X -> option Y) (l : list X) :
  Forall (fun a => exists b, g a = Some b) l ->
  exists r, Tensor.sequence (map g l) = Some r.
Proof.
  induction 1 as [|a l [b Hb] _ [r Hr]]; simpl.
  - now exists [].
  - rewrite Hb, Hr. now exists (b :: r).
Qed.

Lemma item_In {X : Type} (k : string) (items : list (string * X)) (v : X) :
  item k items = Some v -> In (k, v) items.
Proof.
  induction items as [|[k' v'] rest IH]; simpl; [discriminate|].
  destruct (String.eqb_spec k k') as [->|_].
  - intros [= ->]. now left.
  - intros H. right. now apply IH.
Qed.

Section Map.
Variables A B : Type.
Variable f : path -> A -> option B.

(** The items of a mapped dictionary. *)
Lemma mapped_items (p : path) (items : list (string * PyTree A))
    (items' : list (string * PyTree B)) :
  Tensor.sequence
    (map (fun kv =>
            match kv with
            | (k, v) =>
                option_map (pair k)
                  (tree_map_with_path f (p ++ [{| key := k |}]) v)
            end) items) = Some items' ->
  forall k,
    match item k items with
    | None => item k items' = None
    | Some v =>
        exists v',
          tree_map_with_path f (p ++ [{| key := k |}]) v = Some v' /\
          item k items' = Some v'
    end.
Proof.
  revert items'. induction items as [|[k0 v0] rest IH]; intros items' H k.
  - injection H as <-. reflexivity.
  - simpl in H.
    destruct (tree_map_with_path f (p ++ [{| key := k0 |}]) v0) as [v0'|] eqn:E0;
      [|discriminate].
    simpl in H.
    destruct (Tensor.sequence _) as [rest'|] eqn:Er; [|discriminate].
    injection H as <-. specialize (IH rest' eq_refl k). simpl.
    destruct (String.eqb_spec k k0) as [->|_]; [|exact IH].
    exists v0'. auto.
Qed.

(** Below any sequence of keys the mapped tree is the map of what the tree
    has there. *)
Lemma mapped_subtree (t : PyTree A) :
  forall (p : path) (m : PyTree B),
    tree_map_with_path f p t = Some m ->
    forall keys,
      subtree m keys
      = match subtree t keys with
        | None => None
        | Some sub => tree_map_with_path f (p ++ key_path keys) sub
        end.
Proof.
  induction t as [a|items IH] using PyTree_induction; intros p m Hm keys.
  - simpl in Hm. destruct (f p a) as [b|] eqn:Eb; [|discriminate].
    injection Hm as <-. destruct keys as [|k ks]; simpl.
    + now rewrite app_nil_r, Eb.
    + reflexivity.
  - simpl in Hm.
    destruct (Tensor.sequence _) as [items'|] eqn:Es; [|discriminate].
    injection Hm as <-. destruct keys as [|k ks].
    + simpl. now rewrite app_nil_r, Es.
    + simpl subtree. pose proof (mapped_items p items Es k) as Hk.
      destruct (item k items) as [v|] eqn:Ek.
      * destruct Hk as [v' [Ev ->]].
        apply item_In in Ek. rewrite Forall_forall in IH.
        rewrite (IH (k, v) Ek _ _ Ev ks).
        unfold key_path. simpl map. now rewrite <- app_assoc.
      * now rewrite Hk.
Qed.

End Map.

(** Under a path that is not empty, or on a dictionary, the predicate of
    the mask raises nothing. *)
Lemma wd_mask_defined (A : Type) (t : PyTree A) :
  forall p : path,
    p <> [] \/ (exists items, t = Dict items) ->
    exists m, tree_map_with_path (fun q _ => should_decay q) p t = Some m.
Proof.
  induction t as [a|items IH] using PyTree_induction; intros p Hp.
  - destruct Hp as [Hp|[items [=]]]. simpl. unfold should_decay.
    destruct (last_entry p) eqn:E; [eexists; reflexivity|].
    apply last_entry_none in E. contradiction.
  - simpl.
    destruct (@sequence_some _ _
                (fun kv : string * PyTree A =>
                   match kv with
                   | (k, v) =>
                       option_map (pair k)
                         (tree_map_with_path (fun q _ => should_decay q)
                            (p ++ [{| key := k |}]) v)
                   end) items) as [r Hr].
    + eapply Forall_impl; [|exact IH]. intros [k v] Hv. simpl in Hv.
      destruct (Hv (p ++ [{| key := k |}])) as [m Em].
      * left. destruct p; discriminate.
      * rewrite Em. eexists; reflexivity.
    + rewrite Hr. eexists; reflexivity.
Qed.

(** X18: the weight-decay mask of a dictionary of parameters is always
    defined and has the structure of the parameters: where they have
    nothing it has nothing, where they have a dictionary it has one, and
    where they have a leaf it has the value of [should_decay] on the path of
    keys to it; parameters that are a bare leaf raise the [IndexError] of
    the empty path. *)
Theorem wd_mask_mirrors_params (A : Type) (items : list (string * PyTree A)) :
  (exists mask,
     wd_mask (Dict items) = Some mask /\
     forall keys,
       match subtree (Dict items) keys with
       | None => subtree mask keys = None
       | Some (Leaf _) =>
           exists b,
             should_decay (key_path keys) = Some b /\
             subtree mask keys = Some (Leaf b)
       | Some (Dict _) => exists sub, subtree mask keys = Some (Dict sub)
       end) /\
  (forall a : A, wd_mask (Leaf a) = None).
Proof.
  split; [|reflexivity].
  destruct (@wd_mask_defined A (Dict items) [])
    as [mask Em]; [right; now exists items|].
  exists mask. split; [exact Em|]. intros keys.
  rewrite (mapped_subtree _ (Dict items) [] Em keys). simpl app.
  destruct (subtree (Dict items) keys) as [[a|sub]|] eqn:Es; [| |reflexivity].
  - assert (Hk : key_path keys <> []).
    { destruct keys; [discriminate|]. discriminate. }
    simpl. unfold should_decay.
    destruct (last_entry (key_path keys)) eqn:E.
    + eexists. split; reflexivity.
    + apply last_entry_none in E. contradiction.
  - destruct (@wd_mask_defined A (Dict sub) (key_path keys)) as [m' Em'];
      [right; now exists sub|].
    rewrite Em'. simpl in Em'.
    destruct (Tensor.sequence _) as [r|]; [|discriminate].
    injection Em' as <-. now exists r.
Qed.

End ParamTreeFacts.

(** *** The training loss of an epoch *)

Module TrainLossFacts.
Import Tensor Train Checkpoint Program Example Run RunFacts EpochFacts StepFacts.



Section Script.
Variables Params OptState Constants Grads Key : Type.
Variable fold_in : Key -> Z -> Key.
Variable grad : (Params -> Q) -> Params -> Grads.
Variable pmean : Grads -> Grads.
Variable apply_updates : Params -> Grads -> Params.

Abbreviation LoopSt := (Loop Params OptState Constants Grads Key).

(** The number of updates in the metrics of the state being trained. *)
Let updates (l : LoopSt) : Z :=
  Metrics.count (Metrics.loss (metrics (l_state l))).




End Script.


End TrainLossFacts.

(** *** When the script fails *)

Module MainFacts.
Import Tensor Train Checkpoint Program Example StoreFacts LoopFacts StartupMore.

Section Script.
Variables Params OptState Constants Grads Key : Type.
Variable fold_in : Key -> Z -> Key.
Variable grad : (Params -> Q) -> Params -> Grads.
Variable pmean : Grads -> Grads.
Variable apply_updates : Params -> Grads -> Params.

Abbreviation State := (TrainState Params OptState Constants Grads Key).
Abbreviation CkStore := (Store (Ckpt Params OptState Constants Grads Key)).



End Script.

End MainFacts.
